(** * voyager_coder: a shallow embedding of the skill library, the dependency
    resolver, the code analyzer, the curriculum ledger / QA cache and the
    rollout controller, with the properties stated about them.

Layout: Part I holds the embedding, one Rocq module per Python module
([code_parse], [base_vector_mem], [voyager_procedural_mem],
[base_curriculum], [curriculum_validation], [voyager_curriculum],
[critic], [log], [voyager_agent]); Part II holds the lemmas and theorems
about the dependency resolver, the skill names, the ledgers, the QA cache
and the rollout; Part III holds further properties of the same code and of
the validation, proposal, retrieval and critic code around it.

Conventions.
- A Python [dict] used as a map is a [gmap]; a [set] is a [gset]; a
  [dict] used as a struct is a [Record].
- A statement that may raise returns [py_exception + A].
- A [while] loop is a [Fixpoint] on a fuel argument that returns [None]
  when the fuel runs out; every use supplies a bound and Part II proves
  that the bound is never exhausted.
- External collaborators (language-model calls, the Chroma vector store,
  the execution environment, [ast.parse]) are [Variable]s of a [Section]
  or simple state components described where they are introduced. *)

From stdpp Require Import gmap strings list fin_maps pretty.
From Stdlib Require Import QArith.

Local Open Scope nat_scope.
Set Warnings "-register-all".

(* ===================================================================== *)
(** * Part I: the embedding                                               *)
(* ===================================================================== *)

(** ** Python built-ins used by the sources *)

Module Py.

(** The exception classes the sources raise or catch. [assert] raises
    [AssertionError]; a bare [raise Exception(msg)] is [Exception]; a
    failure of an external collaborator is whatever it raised. *)
Inductive py_exception : Type :=
| AssertionError (msg : string)
| ValueError (msg : string)
| RuntimeError (msg : string)
| Exception (msg : string).

(** [s.replace(old, new)] for a non-empty [old]: scan from the left; at a
    position where [old] starts, emit [new] and skip [len(old)]
    characters, otherwise copy one character. [skip] counts the characters
    of a matched occurrence that are still to be dropped. *)
Fixpoint replace_go (old new : string) (skip : nat) (s : string) : string :=
  match s with
  | EmptyString => EmptyString
  | String c s' =>
      match skip with
      | S k => replace_go old new k s'
      | O =>
          if String.prefix old s
          then new +:+ replace_go old new (String.length old - 1) s'
          else String c (replace_go old new O s')
      end
  end.

Definition replace (old new s : string) : string := replace_go old new 0 s.

(** [sep.join(l)]. *)
Fixpoint join (sep : string) (l : list string) : string :=
  match l with
  | [] => EmptyString
  | [x] => x
  | x :: rest => x +:+ sep +:+ join sep rest
  end.

(** [l.remove(x)]: drops the first occurrence ([ValueError] when there is
    none, which the callers here exclude by testing [x in l] first). *)
Fixpoint list_remove (x : string) (l : list string) : list string :=
  match l with
  | [] => []
  | y :: rest => if decide (x = y) then rest else y :: list_remove x rest
  end.

(** The one-character string ["\n"]. *)
Definition nl : string := String (Ascii.ascii_of_nat 10) EmptyString.

(** [f'{n}'] for a non-negative [int]: its decimal numeral. *)
Definition str_of_nat (n : nat) : string := pretty n.

(** [s.split(sep)] for a one-character [sep]: the pieces between the
    occurrences of [sep], empty pieces included; the empty string gives
    one empty piece. *)
Fixpoint split (sep : Ascii.ascii) (s : string) : list string :=
  match s with
  | EmptyString => [EmptyString]
  | String c s' =>
      if decide (c = sep) then EmptyString :: split sep s'
      else
        match split sep s' with
        | piece :: pieces => String c piece :: pieces
        | [] => [String c EmptyString]
        end
  end.

(** [s.replace(old, new)] for any [old]: an empty [old] matches before
    every character and at the end of [s]. *)
Fixpoint replace_empty (new s : string) : string :=
  match s with
  | EmptyString => new
  | String c s' => new +:+ String c (replace_empty new s')
  end.

Definition str_replace (old new s : string) : string :=
  if decide (old = EmptyString) then replace_empty new s else replace old new s.

(** [s.startswith(prefix)] *)
Definition startswith (prefix s : string) : bool := String.prefix prefix s.

(** [sub in s] for strings: [sub] starts at some position of [s]. *)
Fixpoint contains (sub s : string) : bool :=
  String.prefix sub s
  || match s with
     | EmptyString => false
     | String _ s' => contains sub s'
     end.

(** [str(e)] and [type(e).__name__]. *)
Definition exception_str (e : py_exception) : string :=
  match e with
  | AssertionError msg | ValueError msg | RuntimeError msg | Exception msg => msg
  end.

Definition type_name (e : py_exception) : string :=
  match e with
  | AssertionError _ => "AssertionError"
  | ValueError _ => "ValueError"
  | RuntimeError _ => "RuntimeError"
  | Exception _ => "Exception"
  end.

(** The one-character string ["\t"]. *)
Definition tab : string := String (Ascii.ascii_of_nat 9) EmptyString.

(** Statements in sequence, the first exception ending the sequence. *)
#[global] Instance py_bind : MBind (sum py_exception) :=
  λ A B f x, match x with inl e => inl e | inr a => f a end.

End Py.
Export Py.

(** ** Shared dictionaries *)

(** A value of [fn_str_map]: what [add_code] stores for one skill (the
    processed data without its ['name'], plus ['description']). An entry read
    back from [entries.json] may lack ['dependencies'], which
    [append_dependencies] tests for. *)
Module entry.
Record t : Type := mk {
  code : string;
  dependencies : option (list string);
  task : string;
  description : string;
}.
#[global] Instance eq_dec : EqDecision t.
Proof. solve_decision. Defined.
End entry.

(** The dictionary built by [parse_ai_code]; [append_dependencies] adds
    ['full_code'] and [add_skill] adds ['task']. The ['dependencies'] list
    is one mutable list object: whoever holds the dictionary sees the
    mutations, so the field below is always the current content of that
    object. *)
Module parsed_result.
Record t : Type := mk {
  program_code : string;
  program_name : string;
  dependencies : list string;
  raw_msg : string;
  no_parent : bool;
  full_code : option string;
  task : option string;
}.
Definition set_dependencies (l : list string) (p : t) : t :=
  mk (program_code p) (program_name p) l (raw_msg p) (no_parent p)
     (full_code p) (task p).
Definition set_full_code (c : string) (p : t) : t :=
  mk (program_code p) (program_name p) (dependencies p) (raw_msg p)
     (no_parent p) (Some c) (task p).
Definition set_task (k : string) (p : t) : t :=
  mk (program_code p) (program_name p) (dependencies p) (raw_msg p)
     (no_parent p) (full_code p) (Some k).

(** What a variable that holds the dictionary can hold: the dictionary,
    where [Dict None] is the empty one, or Python's [None]. The empty
    dictionary and [None] are the falsy values. *)
Inductive value : Type :=
| PyNone
| Dict (d : option t).
End parsed_result.

(** ** utils/code_parse.py *)

Module code_parse.

(** *** The syntax tree, as far as the analyzer looks at it.

A node has a class and the children that [ast.iter_child_nodes]
yields, in field order; for a [Call] the first child is its [func].
Node classes the analyzer never tests for are [OtherNode]. *)
Record alias : Type := mk_alias {
alias_name : string;
alias_asname : option string;
}.

Inductive node_class : Type :=
| Module_
| FunctionDef (name : string)
| AsyncFunctionDef (name : string)
| ClassDef (name : string)
| Call
| Name (id : string)
| Attribute (attr : string)
| Import (names : list alias)
| ImportFrom (module : option string) (names : list alias)
| OtherNode.

Inductive ast : Type :=
| Node (cls : node_class) (children : list ast).

Definition cls_of (n : ast) : node_class := let 'Node c _ := n in c.
Definition iter_child_nodes (n : ast) : list ast := let 'Node _ cs := n in cs.

Fixpoint size (n : ast) : nat :=
  match n with
  | Node _ cs => S (foldr (λ c acc, size c + acc) 0 cs)
  end.

Definition size_list (l : list ast) : nat := foldr (λ c acc, size c + acc) 0 l.

(** [ast.walk]: breadth-first, [todo.popleft()] then
    [todo.extend(iter_child_nodes(node))]. The fuel is the number of nodes
    still to be yielded. *)
Fixpoint walk_queue (fuel : nat) (todo : list ast) : list ast :=
  match fuel, todo with
  | S k, n :: rest => n :: walk_queue k (rest ++ iter_child_nodes n)
  | _, _ => []
  end.

Definition walk (n : ast) : list ast := walk_queue (size n) [n].

(** What [extract_info_from_fn] records of a function. ['body']
    ([astunparse.unparse]), ['params'] and ['no_parent'] (read from the
    parent references) are not used by the dependency computation and are
    left out. *)
Record fn_info : Type := mk_fn_info {
  fn_name : string;
  fn_node : ast;
}.

(** The three accumulators of [extract_from_ast] that the dependency set
    depends on. [import_statements] (source segments) and
    [all_imported_modules] ([visit_imports], external) are left out. *)
Record extraction : Type := mk_extraction {
  functions : list fn_info;
  dependencies : gset string;
  imported_fns : list string;
}.

(** [isinstance(inner_node, ast.Call) and isinstance(inner_node.func, ast.Name)],
    giving [inner_node.func.id]. *)
Definition call_func_id (n : ast) : option string :=
  match n with
  | Node Call (Node (Name id) _ :: _) => Some id
  | _ => None
  end.

Section analyzer.
  (** [set(dir(builtins))] and [ast.parse] ([None]: the text does not
      parse). *)
  Variable builtin_names : gset string.
  Variable ast_parse : string → option ast.

(** The body of the [for inner_node in ast.walk(node)] loop. *)
Definition add_call (d : gset string) (inner_node : ast) : gset string :=
  match call_func_id inner_node with
  | Some id => if decide (id ∈ builtin_names) then d else {[id]} ∪ d
  | None => d
  end.

Definition extract_info_from_fn (node : ast) (name : string)
    (acc : extraction) : extraction :=
  mk_extraction (functions acc ++ [mk_fn_info name node])
                (foldl add_call (dependencies acc) (walk node))
                (imported_fns acc).

Definition extract_info_from_imports (node : ast) (acc : extraction)
    : extraction :=
  match cls_of node with
  | ImportFrom _ names =>
      mk_extraction (functions acc) (dependencies acc)
                    (imported_fns acc ++ map alias_name names)
  | _ => acc
  end.

(** The body of the [for node in ast.walk(parsed_ast)] loop. *)
Definition scan_node (acc : extraction) (node : ast) : extraction :=
  match cls_of node with
  | FunctionDef name => extract_info_from_fn node name acc
  | Import _ | ImportFrom _ _ => extract_info_from_imports node acc
  | _ => acc
  end.

(** [dependencies.discard(fn_name)] *)
Definition discard (d : gset string) (fn_name : string) : gset string :=
  d ∖ {[fn_name]}.

(** The body of [extract_from_ast] after a successful parse. *)
Definition extract_from_tree (parsed_ast : ast) : extraction :=
  let scanned := foldl scan_node (mk_extraction [] ∅ []) (walk parsed_ast) in
  mk_extraction (functions scanned)
    (foldl discard (dependencies scanned)
           (map fn_name (functions scanned) ++ imported_fns scanned))
    (imported_fns scanned).

Definition extract_from_ast (code : string) : py_exception + extraction :=
  match ast_parse code with
  | None =>
      inl (Exception "could not parse code to AST, check syntax and try again.")
  | Some parsed_ast => inr (extract_from_tree parsed_ast)
  end.

Definition get_fn_name (code : string) : py_exception + string :=
  match ast_parse code with
  | None => inl (ValueError "ast parse fail")
  | Some parsed_ast =>
      let fn_name :=
        foldl (λ acc node,
                 match cls_of node with
                 | FunctionDef name => name
                 | _ => acc
                 end) EmptyString (walk parsed_ast) in
      if decide (fn_name = EmptyString)
      then inl (AssertionError EmptyString)
      else inr fn_name
  end.
End analyzer.

(** *** [append_dependencies] *)

(** The [for fn_str_map in fn_str_map_list: if call_fn in fn_str_map: ...
    break] search: the first table that has the name wins. *)
Fixpoint lookup_tables (fn_str_map_list : list (gmap string entry.t))
    (call_fn : string) : option entry.t :=
  match fn_str_map_list with
  | [] => None
  | fn_str_map :: rest =>
      match fn_str_map !! call_fn with
      | Some e => Some e
      | None => lookup_tables rest call_fn
      end
  end.

(** The variables of the [while dependencies:] loop. [queue] is the
    candidate's own ['dependencies'] list object; [warnings] collects the
    names passed to [logger.warning]. *)
Record loop_state : Type := mk_loop {
  queue : list string;
  visited : gset string;
  dependent_code : list string;
  warnings : list string;
}.

Definition loop_body (fn_str_map_list : list (gmap string entry.t))
    (call_fn : string) (rest : list string) (st : loop_state) : loop_state :=
  if decide (call_fn ∈ visited st) then
    mk_loop rest (visited st) (dependent_code st) (warnings st)
  else
    match lookup_tables fn_str_map_list call_fn with
    | Some e =>
        mk_loop (rest ++ default [] (entry.dependencies e))
                ({[call_fn]} ∪ visited st)
                (dependent_code st ++ [entry.code e])
                (warnings st)
    | None =>
        mk_loop rest (visited st) (dependent_code st)
                (warnings st ++ [call_fn])
    end.

Fixpoint resolve_loop (fuel : nat)
    (fn_str_map_list : list (gmap string entry.t)) (st : loop_state)
    : option loop_state :=
  match queue st with
  | [] => Some st
  | call_fn :: rest =>
      match fuel with
      | O => None
      | S k =>
          resolve_loop k fn_str_map_list
                       (loop_body fn_str_map_list call_fn rest st)
      end
  end.

(** Names that some table has, and the number of queue slots the
    not-yet-visited ones can still contribute: the bound on the number of
    iterations. *)
Definition table_names (fn_str_map_list : list (gmap string entry.t))
    : gset string :=
  ⋃ (dom <$> fn_str_map_list).

Definition recorded (fn_str_map_list : list (gmap string entry.t))
    (name : string) : list string :=
  match lookup_tables fn_str_map_list name with
  | Some e => default [] (entry.dependencies e)
  | None => []
  end.

Definition pending (fn_str_map_list : list (gmap string entry.t))
    (seen : gset string) : nat :=
  sum_list_with (λ name, length (recorded fn_str_map_list name))
                (elements (table_names fn_str_map_list ∖ seen)).

Definition resolve_fuel (fn_str_map_list : list (gmap string entry.t))
    (st : loop_state) : nat :=
  length (queue st) + pending fn_str_map_list (visited st).

(** [append_dependencies(parsed_result, fn_str_map_list)]: the returned
    pair is the mutated dictionary and [full_code]. [None] stands for a
    loop that did not finish within [resolve_fuel]. *)
Definition append_dependencies (pr : parsed_result.t)
    (fn_str_map_list : list (gmap string entry.t))
    : option (parsed_result.t * string) :=
  let code := parsed_result.program_code pr in
  let st0 := mk_loop (parsed_result.dependencies pr) ∅ [] [] in
  match resolve_loop (resolve_fuel fn_str_map_list st0) fn_str_map_list st0 with
  | None => None
  | Some st =>
      let full_code := join (nl +:+ nl) (rev (dependent_code st) ++ [code]) in
      Some (parsed_result.set_full_code full_code
              (parsed_result.set_dependencies (queue st) pr),
            full_code)
  end.

(** *** Imported modules and the whitelist *)

Section imports.
  (** [visit_imports(node)] of the environment package: the modules an
      import statement names; [ast.parse]; and the module-level
      [whitelist_modules], read from a JSON file when the module is
      loaded. *)
  Variable visit_imports : ast → list string.
  Variable ast_parse : string → option ast.
  Variable whitelist_modules : gset string.

(** The fourth accumulator of [extract_from_ast]:
    [all_imported_modules.update(visit_imports(node))] at every [Import]
    and [ImportFrom] node of the walk. *)
Definition all_imported_modules (parsed_ast : ast) : gset string :=
  foldl (λ acc node,
           match cls_of node with
           | Import _ | ImportFrom _ _ => acc ∪ list_to_set (visit_imports node)
           | _ => acc
           end) ∅ (walk parsed_ast).

(** [_, _, _, imported_modules = extract_from_ast(code)]: the fourth
    component of the result, with the same exception when the text does
    not parse. *)
Definition extract_from_ast_modules (code : string)
    : py_exception + gset string :=
  match ast_parse code with
  | None =>
      inl (Exception "could not parse code to AST, check syntax and try again.")
  | Some parsed_ast => inr (all_imported_modules parsed_ast)
  end.

(** [assert_modules_in_whitelist]: the modules in the order of
    iteration; the first one outside the whitelist fails the [assert]. *)
Fixpoint assert_modules_in_whitelist (imported_modules : list string)
    : py_exception + unit :=
  match imported_modules with
  | [] => inr ()
  | module :: rest =>
      if decide (module ∈ whitelist_modules)
      then assert_modules_in_whitelist rest
      else inl (AssertionError
                  ("Error: module " +:+ module
                   +:+ " not in whitelist. try again without this module"
                   +:+ nl))
  end.
End imports.

End code_parse.

(** ** cog_arch/memories/base_vector_mem.py *)

Module base_vector_mem.

(** The memory object: [fn_str_map] and the Chroma collection behind
    [vectordb]. [add_code] always calls [add_texts] with [ids=[name]], which
    upserts, so the collection is a map from id to the stored text (the
    description); [_collection.count()] is its size. *)
Record t : Type := mk {
  fn_str_map : gmap string entry.t;
  vectordb : gmap string string;
}.

(** What is on disk under [ckpt_dir/vectordb_name]: [entries.json] and the
    persisted collection. *)
Record checkpoint : Type := mk_checkpoint {
  entries_json : gmap string entry.t;
  vectordb_dir : gmap string string;
}.

(** [processed_data] after the [mapping] loop. *)
Record processed_data : Type := mk_processed {
  name : option string;
  code : string;
  dependencies : option (list string);
  task : string;
}.

(** [f'{old_name}_v{ver}'] *)
Definition versioned (old_name : string) (ver : nat) : string :=
  old_name +:+ "_v" +:+ str_of_nat ver.

(** How the [while name in self.fn_str_map] loop is left: by the bare
    [return] of the duplicate test, or with a [name] that is not in the
    map. *)
Inductive loop_exit : Type :=
| Skip
| Fresh (name : string) (ver : nat).

Fixpoint name_loop (fuel : nat) (fn_str_map : gmap string entry.t)
    (prevent_duplicates : bool) (code old_name name : string) (ver : nat)
    : option loop_exit :=
  match fn_str_map !! name with
  | None => Some (Fresh name ver)
  | Some stored =>
      let curr_header := name +:+ "(" in
      let old_header := old_name +:+ "(" in
      if prevent_duplicates
         && bool_decide (code = replace curr_header old_header (entry.code stored))
      then Some Skip
      else
        match fuel with
        | O => None
        | S k =>
            name_loop k fn_str_map prevent_duplicates code old_name
                      (versioned old_name (S ver)) (S ver)
        end
  end.

Section add_code.
  Variable ast_parse : string → option code_parse.ast.

(** [add_code] from the point where [processed_data] is built. The result
    is the value returned ([None] for the bare [return]) or the exception
    raised; the outer [option] is [None] when the loop does not finish
    within [size fn_str_map] renamings. When the final [assert] fails the
    in-memory mutations have happened and nothing is written to disk. *)
(** [if "name" not in processed_data: ... = get_fn_name(...)] *)
Definition derive_name (pd : processed_data) : py_exception + string :=
  match name pd with
  | Some n => inr n
  | None => code_parse.get_fn_name ast_parse (code pd)
  end.

Definition add_code (self : t) (disk : checkpoint) (pd : processed_data)
    (description : string) (prevent_duplicates : bool)
    : option (t * checkpoint * (py_exception + option string)) :=
  match derive_name pd with
  | inl e => Some (self, disk, inl e)
  | inr old_name =>
      match name_loop (size (fn_str_map self)) (fn_str_map self)
                      prevent_duplicates (code pd) old_name old_name 1 with
      | None => None
      | Some Skip => Some (self, disk, inr None)
      | Some (Fresh name ver) =>
          let code' :=
            if decide (name ≠ old_name)
            then replace (old_name +:+ "(") (name +:+ "(") (code pd)
            else code pd in
          let vectordb' := <[name := description]> (vectordb self) in
          let fn_str_map' :=
            <[name := entry.mk code' (dependencies pd) (task pd) description]>
              (fn_str_map self) in
          let self' := mk fn_str_map' vectordb' in
          if decide (size vectordb' = size fn_str_map')
          then Some (self', mk_checkpoint fn_str_map' vectordb', inr (Some name))
          else Some (self', disk,
                     inl (AssertionError "vectordb is not synced with entries.json"))
      end
  end.
End add_code.

Section retrieve.
  (** [self.retrieval_top_k], and [db.similarity_search(query, k=k)] on
      the collection: the documents found, each given by its
      [metadata['name']]. *)
  Variable retrieval_top_k : nat.
  Variable similarity_search : gmap string string → string → nat → list string.

(** [retrieve] on the object's own collection ([db=None]); the logging is
    not modelled. *)
Definition retrieve (self : t) (query : string) (k_new : nat) : list string :=
  let k :=
    size (vectordb self) `min` (if decide (k_new = 0) then retrieval_top_k else k_new) in
  if decide (k = 0) then [] else similarity_search (vectordb self) query k.

(** [[self.fn_str_map[doc.metadata['name']] for doc in docs]]: a name
    that is not a key raises [KeyError], a subclass of [Exception]. *)
Fixpoint entries_of (fn_str_map : gmap string entry.t) (docs : list string)
    : py_exception + list entry.t :=
  match docs with
  | [] => inr []
  | doc :: rest =>
      match fn_str_map !! doc with
      | None => inl (Exception ("KeyError: " +:+ doc))
      | Some e =>
          match entries_of fn_str_map rest with
          | inl err => inl err
          | inr entries => inr (e :: entries)
          end
      end
  end.

Definition retrieve_code (self : t) (query : string)
    : py_exception + list entry.t :=
  let docs := retrieve self query 0 in
  entries_of (fn_str_map self) docs.
End retrieve.

End base_vector_mem.

(** ** cog_arch/memories/voyager_procedural_mem.py *)

Module voyager_procedural_mem.
  Import base_vector_mem.

(** [VoyagerProceduralMem.__init__]: the base constructor opens the
    persisted collection and reads [entries.json] only when [resume] is
    set; then the consistency [assert]. Nothing is written. *)
Definition init (resume : bool) (disk : checkpoint)
    : checkpoint * (py_exception + t) :=
  let fn_str_map := if resume then entries_json disk else ∅ in
  let vectordb := vectordb_dir disk in
  if decide (size vectordb = size fn_str_map)
  then (disk, inr (mk fn_str_map vectordb))
  else (disk, inl (AssertionError
                     "Skill Manager's vectordb is not synced with entries.json."))
  .

Section add_skill.
  Variable ast_parse : string → option code_parse.ast.

(** [add_skill(parsed_result, skill_description, task)] with the default
    [metadata_map]; the code and description files it may also write are
    not modelled. It calls [add_code] without [prevent_duplicates], and
    returns nothing. The dictionary is returned because it is mutated
    (['task'] is set). *)
Definition add_skill (self : t) (disk : checkpoint)
    (pr : parsed_result.t) (skill_description task : string)
    : option (t * checkpoint * parsed_result.t * (py_exception + unit)) :=
  let pr' := parsed_result.set_task task pr in
  let pd :=
    mk_processed (Some (parsed_result.program_name pr'))
                 (parsed_result.program_code pr')
                 (Some (parsed_result.dependencies pr'))
                 task in
  match add_code ast_parse self disk pd skill_description false with
  | None => None
  | Some (self', disk', inl e) => Some (self', disk', pr', inl e)
  | Some (self', disk', inr _) => Some (self', disk', pr', inr ())
  end.
End add_skill.

End voyager_procedural_mem.

(** ** cog_arch/reasoning/base_curriculum.py *)

Module base_curriculum.

(** The curriculum object. [qa_cache_questions_vectordb] is the Chroma
    collection of cached questions: [add_texts(texts=[question])] gives no
    id, so every call adds one document, and the collection is the list of
    the page contents; [_collection.count()] is its length. [qa_calls] is
    a ghost field: the questions passed to [run_answer_questions] so
    far. *)
Record t : Type := mk {
  completed_tasks : list string;
  failed_tasks : list string;
  qa_cache : gmap string string;
  qa_cache_questions_vectordb : list string;
  qa_calls : list string;
}.

(** What is on disk under [ckpt_dir/curriculum]. *)
Record checkpoint : Type := mk_checkpoint {
  completed_tasks_json : list string;
  failed_tasks_json : list string;
  qa_cache_json : gmap string string;
  vectordb_dir : list string;
}.

(** [load_prev]: read the three files, then the consistency [assert]. *)
Definition load_prev (self : t) (disk : checkpoint) : py_exception + t :=
  let self' :=
    mk (completed_tasks_json disk) (failed_tasks_json disk)
       (qa_cache_json disk) (qa_cache_questions_vectordb self)
       (qa_calls self) in
  if decide (length (qa_cache_questions_vectordb self') = size (qa_cache self'))
  then inr self'
  else inl (AssertionError
              " qa cache question vectordb is not synced with qa_cache.json.").

(** [__init__]: empty ledgers and cache, the collection opened from its
    persist directory, then [load_prev] when [resume] is set. Nothing is
    written. *)
Definition init (resume : bool) (disk : checkpoint)
    : checkpoint * (py_exception + t) :=
  let self := mk [] [] ∅ (vectordb_dir disk) [] in
  if resume then (disk, load_prev self disk) else (disk, inr self).

(** [for task in self.completed_tasks: if task not in updated: append]. *)
Definition dedup_step (updated : list string) (task : string) : list string :=
  if decide (task ∈ updated) then updated else updated ++ [task].

Definition dedup_completed (completed : list string) : list string :=
  foldl dedup_step [] completed.

(** [while task in updated_failed_tasks: updated_failed_tasks.remove(task)] *)
Fixpoint remove_while (fuel : nat) (task : string) (failed : list string)
    : option (list string) :=
  if decide (task ∈ failed) then
    match fuel with
    | O => None
    | S k => remove_while k task (list_remove task failed)
    end
  else Some failed.

(** [for task in updated_completed_tasks: while ...]. The failed list is
    the object's own list ([updated_failed_tasks = self.failed_tasks] is an
    alias), mutated in place. *)
Fixpoint remove_completed (updated_completed failed : list string)
    : option (list string) :=
  match updated_completed with
  | [] => Some failed
  | task :: rest =>
      match remove_while (length failed) task failed with
      | None => None
      | Some failed' => remove_completed rest failed'
      end
  end.

Definition clean_up_tasks (self : t) (disk : checkpoint)
    : option (t * checkpoint) :=
  let updated_completed_tasks := dedup_completed (completed_tasks self) in
  match remove_completed updated_completed_tasks (failed_tasks self) with
  | None => None
  | Some updated_failed_tasks =>
      Some (mk updated_completed_tasks updated_failed_tasks (qa_cache self)
               (qa_cache_questions_vectordb self) (qa_calls self),
            mk_checkpoint updated_completed_tasks updated_failed_tasks
                          (qa_cache_json disk) (vectordb_dir disk))
  end.

Definition update_exploration_progress (self : t) (disk : checkpoint)
    (task : string) (success : bool) : option (t * checkpoint) :=
  let self' :=
    if success
    then mk (completed_tasks self ++ [task]) (failed_tasks self)
            (qa_cache self) (qa_cache_questions_vectordb self) (qa_calls self)
    else mk (completed_tasks self) (failed_tasks self ++ [task])
            (qa_cache self) (qa_cache_questions_vectordb self) (qa_calls self) in
  clean_up_tasks self' disk.

Section qa.
  (** The answering language model: the answer may depend on how many
      calls were made before. *)
  Variable run_answer_questions : nat → string → string.

(** The state after [answer = self.run_answer_questions(question)]
    followed by the four statements that cache the pair. *)
Definition ask (self : t) (question : string) : string :=
  run_answer_questions (length (qa_calls self)) question.

Definition asked (self : t) (question : string) : t :=
  mk (completed_tasks self) (failed_tasks self) (qa_cache self)
     (qa_cache_questions_vectordb self) (qa_calls self ++ [question]).

Definition cache_answer (self : t) (disk : checkpoint)
    (question answer : string) : t * checkpoint :=
  let qa_cache' := <[question := answer]> (qa_cache self) in
  let vectordb' := qa_cache_questions_vectordb self ++ [question] in
  (mk (completed_tasks self) (failed_tasks self) qa_cache' vectordb'
      (qa_calls self),
   mk_checkpoint (completed_tasks_json disk) (failed_tasks_json disk)
                 qa_cache' vectordb').

Definition task_question (task : string) : string :=
  "Explain at a conceptual level, how to accomplish the below task in Python programming?"
    +:+ nl +:+ task.

Definition render_context (answer : string) : string :=
  "Rough plan to accomplish the task (can be wrong): " +:+ nl +:+ answer +:+ nl.

Definition get_task_context (self : t) (disk : checkpoint) (task : string)
    : t * checkpoint * string :=
  let question := task_question task in
  match qa_cache self !! question with
  | Some answer => (self, disk, render_context answer)
  | None =>
      let answer := ask self question in
      let '(self', disk') :=
        cache_answer (asked self question) disk question answer in
      (self', disk', render_context answer)
  end.
End qa.

End base_curriculum.

(** ** utils/curriculum_validation.py *)

Module curriculum_validation.

Definition assert_task_not_completed (task : string)
    (completed_tasks : list string) : py_exception + unit :=
  if decide (task ∉ completed_tasks) then inr ()
  else inl (AssertionError
              ("The task proposed has already been completed previously!"
               +:+ "Give a new task that has not been completed before")).

Definition assert_task_not_previous (task previous_task : string)
    : py_exception + unit :=
  if decide (task ≠ previous_task) then inr ()
  else inl (AssertionError
              "The task you proposed is the previous task. Issue a different task.").

(** [excluded_names] may be [None]; [None] and the empty list are both
    falsy. *)
Definition assert_no_function_name_collision (function_name : string)
    (excluded_names : option (list string)) : py_exception + unit :=
  match excluded_names with
  | None | Some [] => inr ()
  | Some names =>
      if decide (function_name ∉ names) then inr ()
      else inl (AssertionError
                  ("gt_fn_name " +:+ function_name
                   +:+ " is currently used by another process. please give a different gt_fn_name"))
  end.

Definition assert_single_gt_fn_name (function_name : string)
    : py_exception + unit :=
  let num_functions := length (split Ascii.Space function_name) in
  if decide (num_functions = 1) then inr ()
  else inl (AssertionError
              ("you can only request for ONE function to be written! found "
               +:+ str_of_nat num_functions +:+ " functions")).

Definition assert_test_case_has_assert (test_case : string)
    : py_exception + unit :=
  if startswith "assert" test_case then inr ()
  else inl (AssertionError
              ("this test case does not start with assert: " +:+ test_case
               +:+ nl
               +:+ "Make sure that each test case starts with assert and only contains one line")).

Definition assert_function_name_in_call (gt_fn_name func_call : string)
    : py_exception + unit :=
  if contains gt_fn_name func_call then inr ()
  else inl (AssertionError
              ("test case called " +:+ func_call
               +:+ " but it did not contain gt_fn_name " +:+ gt_fn_name)).

Definition perform_task_assertions (task : string)
    (completed_tasks : list string) (previous_task : string)
    : py_exception + unit :=
  if decide (task = EmptyString) then inl (AssertionError "task not found!")
  else
    assert_task_not_completed task completed_tasks;;
    assert_task_not_previous task previous_task.

Section test_cases.
  (** [get_call_str] of [code_parse]: it parses the statement and
      unparses the left side of its test; both are library calls. *)
  Variable get_call_str : string → py_exception + string.

Definition extract_assert_function_call (test_case : string)
    : py_exception + string :=
  match get_call_str test_case with
  | inr func_call => inr func_call
  | inl e =>
      inl (Exception
             ("Invalid assert statement/function call: " +:+ test_case +:+ nl
              +:+ exception_str e +:+ ", " +:+ type_name e +:+ nl))
  end.

(** The [try] block of the loop of [construct_valid_test_cases]. *)
Definition check_test_case (gt_fn_name test_case : string)
    : py_exception + unit :=
  assert_test_case_has_assert test_case;;
  func_call ← extract_assert_function_call test_case;
  assert_function_name_in_call gt_fn_name func_call.

(** The loop, from the list of valid test cases collected so far. *)
Fixpoint construct_valid_test_cases_from (valid_test_cases : list string)
    (raw_test_cases : list string) (gt_fn_name : string)
    : py_exception + list string :=
  match raw_test_cases with
  | [] => inr valid_test_cases
  | test_case :: rest =>
      match check_test_case gt_fn_name test_case with
      | inl e =>
          inl (Exception (exception_str e +:+ ", " +:+ type_name e +:+ nl))
      | inr _ =>
          construct_valid_test_cases_from (valid_test_cases ++ [test_case])
                                          rest gt_fn_name
      end
  end.

Definition construct_valid_test_cases (raw_test_cases : list string)
    (gt_fn_name : string) : py_exception + list string :=
  construct_valid_test_cases_from [] raw_test_cases gt_fn_name.
End test_cases.

End curriculum_validation.

(** ** cog_arch/reasoning/voyager_curriculum.py *)

Module voyager_curriculum.
  Import base_curriculum.

(** The subclass adds [previous_task]. *)
Record t : Type := mk {
  base : base_curriculum.t;
  previous_task : string;
}.

Definition update_exploration_progress (self : t) (disk : checkpoint)
    (task : string) (success : bool) : option (t * checkpoint) :=
  match base_curriculum.update_exploration_progress (base self) disk task success with
  | None => None
  | Some (b, disk') => Some (mk b task, disk')
  end.

(** The variables of the [for question in questions_new] loop of
    [run_qa]. *)
Record qa_loop : Type := mk_qa_loop {
  self : base_curriculum.t;
  disk : checkpoint;
  questions : list string;
  answers : list string;
}.

Section run_qa.
  Variable run_answer_questions : nat → string → string.
  (** [similarity_search_with_score(question, k=1)] on a collection: the
      documents found with their L2 distances, nearest first. A distance
      is a double seen as a rational; no double lies between 1/20 and the
      double written [0.05], so [score < 0.05] is [score < 1/20]. *)
  Variable similarity_search_with_score :
    list string → string → list (string * Q).

(** The first [if] of the loop body: the cached question to reuse, if
    any. *)
Definition nearest_cached (b : base_curriculum.t) (question : string)
    : option string :=
  if decide (0 < length (qa_cache_questions_vectordb b)) then
    match similarity_search_with_score (qa_cache_questions_vectordb b) question with
    | (page_content, score) :: _ =>
        if Qlt_le_dec score (5 # 100) then Some page_content else None
    | [] => None
    end
  else None.

(** One iteration of the loop; the exception, if any, leaves the loop
    with the state reached. *)
Definition run_qa_body (st : qa_loop) (question : string)
    : qa_loop * option py_exception :=
  match nearest_cached (self st) question with
  | Some question_cached =>
      match qa_cache (self st) !! question_cached with
      | None => (st, Some (AssertionError EmptyString))
      | Some answer_cached =>
          (mk_qa_loop (self st) (disk st)
                      (questions st ++ [question_cached])
                      (answers st ++ [answer_cached]), None)
      end
  | None =>
      let answer := ask run_answer_questions (self st) question in
      let b := asked (self st) question in
      if decide (is_Some (qa_cache b !! question)) then
        (mk_qa_loop b (disk st) (questions st) (answers st),
         Some (AssertionError EmptyString))
      else
        let '(b', disk') := cache_answer b (disk st) question answer in
        (mk_qa_loop b' disk' (questions st ++ [question])
                    (answers st ++ [answer]), None)
  end.

Fixpoint run_qa_loop (st : qa_loop) (questions_new : list string)
    : qa_loop * option py_exception :=
  match questions_new with
  | [] => (st, None)
  | question :: rest =>
      match run_qa_body st question with
      | (st', None) => run_qa_loop st' rest
      | (st', Some e) => (st', Some e)
      end
  end.

(** [run_qa], given the questions [run_ask_questions] produced. *)
Definition run_qa (b : base_curriculum.t) (d : checkpoint)
    (questions_new : list string)
    : base_curriculum.t * checkpoint
      * (py_exception + (list string * list string)) :=
  match run_qa_loop (mk_qa_loop b d [] []) questions_new with
  | (st, Some e) => (self st, disk st, inl e)
  | (st, None) =>
      if decide (length questions_new = length (questions st)
                 ∧ length (questions st) = length (answers st))
      then (self st, disk st, inr (questions st, answers st))
      else (self st, disk st, inl (AssertionError EmptyString))
  end.
End run_qa.

(** *** Proposing the next task *)

(** The dictionary [render_observation] builds; its keys are iterated in
    the order of insertion. *)
Record observation : Type := mk_observation {
  context : string;
  obs_completed_tasks : string;
  obs_failed_tasks : string;
}.

Definition render_observation (completed_tasks failed_tasks : list string)
    : observation :=
  let completed_tasks_str :=
    match completed_tasks with
    | [] => "None"
    | _ => nl +:+ tab +:+ join (nl +:+ tab) completed_tasks
    end in
  let failed_tasks_str :=
    match failed_tasks with
    | [] => "None"
    | _ => nl +:+ tab +:+ join (nl +:+ tab) failed_tasks
    end in
  mk_observation EmptyString
    ("Completed tasks so far (do not give me these tasks again!): "
     +:+ completed_tasks_str +:+ nl +:+ nl)
    ("Failed tasks that are too hard: " +:+ failed_tasks_str +:+ nl +:+ nl).

(** The [for question, answer in zip(questions, answers)] loop of
    [render_human_msg], from the counter [i] and the context built so
    far. *)
Fixpoint render_pairs (i : nat) (pairs : list (string * string))
    (context : string) : string :=
  match pairs with
  | [] => context
  | (question, answer) :: rest =>
      if contains "Answer: Unknown" answer || contains "language model" answer
      then render_pairs i rest context
      else
        let context :=
          context +:+ ("Question " +:+ str_of_nat i +:+ ": " +:+ question +:+ nl) in
        let context := context +:+ (answer +:+ nl +:+ nl) in
        let i := S i in
        if decide (5 < i) then context else render_pairs i rest context
  end.

(** [render_human_msg]: the dictionary is mutated, so it is returned
    with the content. *)
Definition render_human_msg (questions answers : list string)
    (o : observation) : observation * string :=
  let o :=
    mk_observation (render_pairs 1 (zip questions answers) (context o))
                   (obs_completed_tasks o) (obs_failed_tasks o) in
  (o, context o +:+ obs_completed_tasks o +:+ obs_failed_tasks o).

(** The dictionary of a [NextTask], whose fields the pydantic model
    requires, so that [response.get('task', '')] and
    [response.get('test_tuple', [])] find their keys. [test_list] and
    [task_prompt] are the keys added later. *)
Record response : Type := mk_response {
  task : string;
  gt_fn_name : string;
  test_setup_code : string;
  test_tuple : list string;
  test_list : option (list string);
  task_prompt : option string;
}.

Section proposing.
  Variable visit_imports : code_parse.ast → list string.
  Variable ast_parse : string → option code_parse.ast.
  Variable whitelist_modules : gset string.
  Variable get_call_str : string → py_exception + string.
  (** [pydantic_parse_fn(message, parser)], and the [lm_reason] call of
      [propose_next_ai_task] with the message it is given: the response
      it returns, [None] for a falsy one. *)
  Variable pydantic_parse_fn : string → py_exception + response.
  Variable lm_reason : string → py_exception + option response.

(** [response_validation]: the dictionary is mutated (['test_list'] is
    set), so it is returned. *)
Definition response_validation (self : t) (response : response)
    : py_exception + voyager_curriculum.response :=
  let task := task response in
  curriculum_validation.perform_task_assertions
    task (completed_tasks (base self)) (previous_task self);;
  let test_tuple := test_tuple response in
  if decide (test_tuple = []) then inl (AssertionError "test_tuple not found!")
  else
    imported_modules ←
      code_parse.extract_from_ast_modules visit_imports ast_parse
        (test_setup_code response);
    code_parse.assert_modules_in_whitelist whitelist_modules
      (elements imported_modules);;
    let gt_fn_name := gt_fn_name response in
    curriculum_validation.assert_single_gt_fn_name gt_fn_name;;
    valid_test_cases ←
      curriculum_validation.construct_valid_test_cases get_call_str
        test_tuple gt_fn_name;
    if decide (valid_test_cases = [])
    then inl (AssertionError "could not parse all test cases")
    else
      inr (mk_response task gt_fn_name (test_setup_code response) test_tuple
             (Some valid_test_cases) (task_prompt response)).

Definition parse_n_validate (self : t) (message : string)
    : py_exception + response :=
  response ← pydantic_parse_fn message;
  match response_validation self response with
  | inl e =>
      inl (Exception
             ("Error! " +:+ exception_str e +:+ ", " +:+ type_name e +:+ nl
              +:+ "Check your response again, and fix the error above to follow the required format."
              +:+ nl
              +:+ "If the same type of error repeats, give a different task which avoids the error above."
              +:+ nl))
  | inr response => inr response
  end.

(** [while gt_fn_name in excluded_names: version += 1;
    gt_fn_name = f"{base_name}_v{version}"]. *)
Fixpoint rename_loop (fuel : nat) (excluded_names : list string)
    (base_name gt_fn_name : string) (version : nat) : option (string * nat) :=
  if decide (gt_fn_name ∈ excluded_names) then
    match fuel with
    | O => None
    | S k =>
        rename_loop k excluded_names base_name
                    (base_vector_mem.versioned base_name (S version)) (S version)
    end
  else Some (gt_fn_name, version).

(** [propose_next_ai_task] from the message on: the [lm_reason] call,
    the renaming and the task prompt. The outer [option] is [None] when
    the loop does not finish within [length excluded_names] renamings. A
    response without ['test_list'] raises [KeyError], a subclass of
    [Exception], when the renaming reaches that field. *)
Definition propose_next_ai_task (human_msg : string)
    (excluded_names : option (list string))
    : option (py_exception + response) :=
  match lm_reason human_msg with
  | inl e => Some (inl e)
  | inr None =>
      Some (inl (RuntimeError "Max retries reached, failed to propose ai task."))
  | inr (Some response) =>
      let gt_fn_name := gt_fn_name response in
      let renamed :=
        match excluded_names with
        | Some (name :: names) =>
            let excluded_names := name :: names in
            if decide (gt_fn_name ∈ excluded_names) then
              let base_name := gt_fn_name in
              match rename_loop (length excluded_names) excluded_names
                                base_name gt_fn_name 1 with
              | None => None
              | Some (gt_fn_name, _) =>
                  match test_list response with
                  | None => Some (inl (Exception "KeyError: test_list"))
                  | Some tests =>
                      Some (inr (mk_response
                                   (str_replace base_name gt_fn_name (task response))
                                   (str_replace base_name gt_fn_name
                                      (voyager_curriculum.gt_fn_name response))
                                   (str_replace base_name gt_fn_name
                                      (test_setup_code response))
                                   (test_tuple response)
                                   (Some (str_replace base_name gt_fn_name <$> tests))
                                   (task_prompt response)))
                  end
              end
            else Some (inr response)
        | _ => Some (inr response)
        end in
      match renamed with
      | None => None
      | Some (inl e) => Some (inl e)
      | Some (inr response) =>
          Some (inr (mk_response (task response)
                       (voyager_curriculum.gt_fn_name response)
                       (test_setup_code response) (test_tuple response)
                       (test_list response)
                       (Some (task response +:+ nl
                              +:+ "You must strictly follow the function name: "
                              +:+ voyager_curriculum.gt_fn_name response))))
      end
  end.
End proposing.

End voyager_curriculum.

(** ** cog_arch/reasoning/critic.py *)

Module critic.
Record critic_out : Type := mk {
  success : bool;
  critique : string;
  reasoning : string;
}.

(** The configuration [check_success] reads. *)
Record t : Type := mk_t {
  use_critic : bool;
  use_critic_success : bool;
  task : string;
}.

Definition render_critic_message
    (generated_code env_feedback task context : string) : string :=
  "[Task]:" +:+ nl
  +:+ (task +:+ nl)
  +:+ (if decide (context = EmptyString)
       then "[Context]: None" +:+ nl +:+ nl
       else "[Context]: " +:+ nl +:+ " " +:+ context +:+ nl +:+ nl)
  +:+ ("[function impl]:" +:+ nl)
  +:+ (generated_code +:+ nl)
  +:+ ("[unit test results]:" +:+ nl)
  +:+ (env_feedback +:+ nl).

Section check_success.
  (** The [lm_reason] call with the message it is given: the dictionary
      parsed from the model's answer, or the fallback. *)
  Variable lm_reason : string → py_exception + critic_out.

Definition check_success (self : t)
    (env_feedback : string) (reward : bool) (generated_code context : string)
    : py_exception + critic_out :=
  let critic_out := mk reward EmptyString EmptyString in
  if (negb reward && use_critic self) || use_critic_success self then
    critic_out ←
      lm_reason (render_critic_message generated_code env_feedback
                                       (task self) context);
    if negb (use_critic_success self)
    then inr (mk reward (critique critic_out) (reasoning critic_out))
    else inr critic_out
  else inr critic_out.
End check_success.
End critic.

(** ** utils/log.py *)

Module log.

(** [output.json] of one task folder. [state] is
    [info.get('individial_results', None)]. *)
Record output : Type := mk_output {
  env_feedback : string;
  state : option string;
  code : string;
  full_code : string;
  task_id : string;
  success : bool;
  critique : string;
  reasoning : string;
}.

(** The result directory: the task folders, keyed by mode ([train] or
    not) and task id, and the lines appended to [error.txt], each the
    task id and the exception (the traceback text is not modelled). *)
Record result_dir : Type := mk_result_dir {
  outputs : gmap (bool * string) output;
  error_txt : list (string * py_exception);
}.

(** [log_rollout] builds [output_d] with [parsed_result.get(...)], which
    on [None] raises [AttributeError], a subclass of [Exception], before
    anything is written. *)
Definition log_rollout (dir : result_dir) (train : bool) (task_id obs : string)
    (info : option string) (parsed_result : parsed_result.value)
    (critic_out : critic.critic_out) : py_exception + result_dir :=
  match parsed_result with
  | parsed_result.PyNone =>
      inl (Exception "AttributeError: 'NoneType' object has no attribute 'get'")
  | parsed_result.Dict parsed_result =>
      let output_d :=
        mk_output obs info
          (from_option parsed_result.program_code EmptyString parsed_result)
          (default EmptyString (parsed_result ≫= parsed_result.full_code))
          task_id (critic.success critic_out) (critic.critique critic_out)
          (critic.reasoning critic_out) in
      inr (mk_result_dir (<[(train, task_id) := output_d]> (outputs dir))
                         (error_txt dir))
  end.

Definition handle_rollout_error (e : py_exception) (task_id : string)
    (dir : result_dir) : result_dir :=
  mk_result_dir (outputs dir) (error_txt dir ++ [(task_id, e)]).

End log.

(** ** cog_arch/agents/voyager_agent.py *)

Module voyager_agent.
  Import critic.

(** The agent: its working memory, its configuration, the modules it
    owns and the directories they write to. [task] and [task_id] are set
    by the base class's [reset] from the task dictionary. *)
Record t : Type := mk {
  task : string;
  task_id : string;
  context : string;
  train : bool;
  eval_later : bool;
  max_task_attempts : nat;
  procedural_mem : base_vector_mem.t;
  skill_disk : base_vector_mem.checkpoint;
  curriculum_module : voyager_curriculum.t;
  curriculum_disk : base_curriculum.checkpoint;
  result_dir : log.result_dir;
}.

Record full_task : Type := mk_full_task {
  ft_task : string;
  ft_task_id : string;
}.

(** The local variables of [rollout]. [parsed_result] starts as the
    empty dictionary and then holds whatever [gen_code] returned last: a
    dictionary or a falsy value, the empty dictionary or [None]. *)
Record locals : Type := mk_locals {
  obs : string;
  reward : bool;
  info : option string;
  parsed_result : parsed_result.value;
  code : string;
  critic_out : critic.critic_out;
}.

(** How one pass through the body of the [for] loop ends. [Diverge] marks
    a call of [append_dependencies] that does not return. *)
Inductive outcome : Type :=
| Next
| Break
| Raise (e : py_exception)
| Diverge.

Section agent.
  (** The collaborators; each may raise. [gen_code] also receives the
      attempt number, since the model behind it need not answer the same
      way twice; it returns a dictionary, or a falsy value when it has no
      candidate. *)
  Variable ast_parse : string → option code_parse.ast.
  Variable run_answer_questions : nat → string → string.
  Variable retrieve_code : base_vector_mem.t → string → py_exception + list entry.t.
  Variable gen_code :
    nat → list entry.t → string → string → critic.critic_out → string →
    py_exception + parsed_result.value.
  Variable task_env_step :
    string → bool → py_exception + (string * bool * option string).
  Variable check_success :
    string → bool → string → string → py_exception + critic.critic_out.
  Variable gen_code_desc : parsed_result.t → string → string.

Definition get_fn_maps (self : t) : list (gmap string entry.t) :=
  [base_vector_mem.fn_str_map (procedural_mem self)].

(** [reset]: the base class sets [task] and [task_id]; [set_context]
    asks the curriculum for the task context. *)
Definition reset (self : t) (ft : full_task) : t :=
  let '(b, d, ctx) :=
    base_curriculum.get_task_context run_answer_questions
      (voyager_curriculum.base (curriculum_module self))
      (curriculum_disk self) (ft_task ft) in
  mk (ft_task ft) (ft_task_id ft) ctx (train self) (eval_later self)
     (max_task_attempts self) (procedural_mem self) (skill_disk self)
     (voyager_curriculum.mk b
        (voyager_curriculum.previous_task (curriculum_module self)))
     d (result_dir self).

(** The body of [for i in range(self.max_task_attempts)]. *)
Definition attempt (self : t) (use_public_tests : bool) (i : nat)
    (l : locals) : locals * outcome :=
  match retrieve_code (procedural_mem self)
          (context self +:+ nl +:+ nl +:+ critique (critic_out l)) with
  | inl e => (l, Raise e)
  | inr skills =>
      match gen_code i skills (code l) (obs l) (critic_out l) (context self) with
      | inl e => (l, Raise e)
      | inr (parsed_result.Dict (Some pr)) =>
          let code' := parsed_result.program_code pr in
          match code_parse.append_dependencies pr (get_fn_maps self) with
          | None =>
              (mk_locals (obs l) (reward l) (info l)
                         (parsed_result.Dict (Some pr)) code'
                         (critic_out l), Diverge)
          | Some (pr', full_code) =>
              let l1 :=
                mk_locals (obs l) (reward l) (info l)
                          (parsed_result.Dict (Some pr')) code'
                          (critic_out l) in
              if eval_later self && negb (train self) && negb use_public_tests
              then (l1, Break)
              else
                match task_env_step full_code use_public_tests with
                | inl e => (l1, Raise e)
                | inr (obs', reward', info') =>
                    let l2 :=
                      mk_locals obs' reward' info'
                                (parsed_result.Dict (Some pr')) code'
                                (critic_out l) in
                    match check_success obs' reward' code' (context self) with
                    | inl e => (l2, Raise e)
                    | inr critic_out' =>
                        let l3 :=
                          mk_locals obs' reward' info'
                                    (parsed_result.Dict (Some pr')) code'
                                    critic_out' in
                        if success critic_out' then (l3, Break) else (l3, Next)
                    end
                end
          end
      | inr falsy =>
          (mk_locals (obs l) (reward l) (info l) falsy (code l) (critic_out l),
           Next)
      end
  end.

(** The [for] loop: [n] passes are left, the next one is number [i]. *)
Fixpoint attempts (self : t) (use_public_tests : bool) (n i : nat)
    (l : locals) : locals * outcome :=
  match n with
  | O => (l, Next)
  | S k =>
      match attempt self use_public_tests i l with
      | (l', Next) => attempts self use_public_tests k (S i) l'
      | stopped => stopped
      end
  end.

Definition initial_locals : locals :=
  mk_locals EmptyString false None (parsed_result.Dict None) EmptyString
            (critic.mk false EmptyString EmptyString).

Definition with_result_dir (self : t) (dir : log.result_dir) : t :=
  mk (task self) (task_id self) (context self) (train self)
     (eval_later self) (max_task_attempts self) (procedural_mem self)
     (skill_disk self) (curriculum_module self) (curriculum_disk self) dir.

(** [rollout]: [try: for ...: ... except Exception as e:
    handle_rollout_error(...)], then [log_rollout], which is outside the
    [try], and the [return]. *)
Definition rollout (self : t) (ft : full_task) (use_public_tests : bool)
    : option (t * (py_exception + (bool * parsed_result.value))) :=
  let self := reset self ft in
  match attempts self use_public_tests (max_task_attempts self) 0
                 initial_locals with
  | (_, Diverge) => None
  | (l, stopped) =>
      let dir :=
        match stopped with
        | Raise e => log.handle_rollout_error e (task_id self) (result_dir self)
        | _ => result_dir self
        end in
      match log.log_rollout dir (train self) (task_id self) (obs l) (info l)
                            (parsed_result l) (critic_out l) with
      | inl e => Some (with_result_dir self dir, inl e)
      | inr dir =>
          Some (with_result_dir self dir,
                inr (success (critic_out l), parsed_result l))
      end
  end.

(** [train_step], given the task [get_next_task] proposed. A success
    with an empty dictionary leaves the call of [gen_code_desc], which
    unpacks the dictionary into its keyword arguments, without its
    required [program_code], and [None] cannot be unpacked: a [TypeError],
    a subclass of [Exception], in both cases. *)
Definition train_step (self : t) (ft : full_task)
    : option (t * (py_exception + unit)) :=
  match rollout self ft false with
  | None => None
  | Some (self, inl e) => Some (self, inl e)
  | Some (self, inr (succ, pr_opt)) =>
      let archived :=
        if succ then
          match pr_opt with
          | parsed_result.PyNone =>
              Some (self, inl (Exception "argument after ** must be a mapping"))
          | parsed_result.Dict None =>
              Some (self, inl (Exception "missing program_code"))
          | parsed_result.Dict (Some pr) =>
              let code_desc := gen_code_desc pr (task self) in
              match voyager_procedural_mem.add_skill ast_parse
                      (procedural_mem self) (skill_disk self) pr code_desc
                      (task self) with
              | None => None
              | Some (mem, disk, _, r) =>
                  Some (mk (task self) (task_id self) (context self)
                           (train self) (eval_later self)
                           (max_task_attempts self) mem disk
                           (curriculum_module self) (curriculum_disk self)
                           (result_dir self), r)
              end
          end
        else Some (self, inr ()) in
      match archived with
      | None => None
      | Some (self, inl e) => Some (self, inl e)
      | Some (self, inr _) =>
          match voyager_curriculum.update_exploration_progress
                  (curriculum_module self) (curriculum_disk self)
                  (task self) succ with
          | None => None
          | Some (c, d) =>
              Some (mk (task self) (task_id self) (context self)
                       (train self) (eval_later self)
                       (max_task_attempts self) (procedural_mem self)
                       (skill_disk self) c d (result_dir self), inr ())
          end
      end
  end.
End agent.

End voyager_agent.

(* ===================================================================== *)
(** * Specification vocabulary                                            *)
(* ===================================================================== *)

(** The notions the properties are stated with, written from their wording
    and not from the code. *)

Module spec.

(** A list with duplicates removed, "first occurrence kept, order
    preserved": the head stays and every later copy of it goes. *)
Fixpoint first_occurrences (l : list string) : list string :=
  match l with
  | [] => []
  | x :: rest => x :: filter (λ y, y ≠ x) (first_occurrences rest)
  end.

(** A skill is reachable from a list of names when a table has it and it
    is one of the names, or a recorded dependency of a reachable skill. *)
Inductive reachable (tables : list (gmap string entry.t))
    (roots : list string) : string → Prop :=
| reach_root n :
    n ∈ roots →
    is_Some (code_parse.lookup_tables tables n) →
    reachable tables roots n
| reach_dep m n :
    reachable tables roots m →
    n ∈ code_parse.recorded tables m →
    is_Some (code_parse.lookup_tables tables n) →
    reachable tables roots n.

(** The code a name stands for, and the codes of a list of names. *)
Definition code_of (tables : list (gmap string entry.t)) (n : string)
    : string :=
  from_option entry.code EmptyString (code_parse.lookup_tables tables n).

Definition codes (tables : list (gmap string entry.t)) (order : list string)
    : list string :=
  code_of tables <$> order.

(** The names [add_code] tries in turn: the derived name first, then
    its versions 2, 3, ... *)
Definition name_at (old_name : string) (ver : nat) : string :=
  if decide (ver = 1) then old_name
  else base_vector_mem.versioned old_name ver.

(** [v] is the smallest integer from 2 on whose versioned name is not a
    key of the map. *)
Definition smallest_unused (m : gmap string entry.t) (old_name : string)
    (v : nat) : Prop :=
  2 ≤ v
  ∧ m !! base_vector_mem.versioned old_name v = None
  ∧ ∀ w, 2 ≤ w < v → is_Some (m !! base_vector_mem.versioned old_name w).

(** The duplicate test of the loop at the name tried as number [w]. *)
Definition same_as_stored (m : gmap string entry.t) (old_name code : string)
    (w : nat) : Prop :=
  ∃ stored,
    m !! name_at old_name w = Some stored
    ∧ code = replace (name_at old_name w +:+ "(") (old_name +:+ "(")
                     (entry.code stored).

(** All the names tried up to number [w] are keys of the map: the loop
    gets as far as the name tried as number [w] and beyond. *)
Definition tried (m : gmap string entry.t) (old_name : string) (w : nat)
    : Prop :=
  ∀ u, 1 ≤ u ≤ w → is_Some (m !! name_at old_name u).

(** The outcome "the new skill is stored under the smallest unused
    versioned name, with its header token rewritten, and the entry stored
    under [f] is as before". *)
Definition stored_versioned (ast_parse : string → option code_parse.ast)
    (self : base_vector_mem.t) (disk : base_vector_mem.checkpoint)
    (pd : base_vector_mem.processed_data) (description : string)
    (prevent_duplicates : bool) (f : string) : Prop :=
  ∃ v self' disk' r,
    smallest_unused (base_vector_mem.fn_str_map self) f v
    ∧ base_vector_mem.add_code ast_parse self disk pd description
                               prevent_duplicates
      = Some (self', disk', r)
    ∧ base_vector_mem.fn_str_map self'
      = <[base_vector_mem.versioned f v :=
            entry.mk (replace (f +:+ "(")
                              (base_vector_mem.versioned f v +:+ "(")
                              (base_vector_mem.code pd))
                     (base_vector_mem.dependencies pd)
                     (base_vector_mem.task pd) description]>
          (base_vector_mem.fn_str_map self)
    ∧ base_vector_mem.fn_str_map self' !! f
      = base_vector_mem.fn_str_map self !! f.

(** A node is in the tree of [root]: it is [root] or a child of a node in
    the tree. *)
Inductive in_tree (root : code_parse.ast) : code_parse.ast → Prop :=
| in_tree_root : in_tree root root
| in_tree_child n c :
    in_tree root n → c ∈ code_parse.iter_child_nodes n → in_tree root c.

(** Inside some [def] of the text there is a call whose callee is the plain
    identifier [id]. *)
Definition calls (t : code_parse.ast) (id : string) : Prop :=
  ∃ fn name inner,
    in_tree t fn ∧ code_parse.cls_of fn = code_parse.FunctionDef name
    ∧ in_tree fn inner ∧ code_parse.call_func_id inner = Some id.

(** The text defines a function [name] with [def], or with [async def]. *)
Definition defines (t : code_parse.ast) (name : string) : Prop :=
  ∃ n, in_tree t n ∧ code_parse.cls_of n = code_parse.FunctionDef name.

Definition defines_async (t : code_parse.ast) (name : string) : Prop :=
  ∃ n, in_tree t n ∧ code_parse.cls_of n = code_parse.AsyncFunctionDef name.

(** [name] is listed by a [from ... import] statement of the text; is
    listed by an [import] statement; is the name some import statement binds
    with [as]. *)
Definition from_imports (t : code_parse.ast) (name : string) : Prop :=
  ∃ n module names a,
    in_tree t n ∧ code_parse.cls_of n = code_parse.ImportFrom module names
    ∧ a ∈ names ∧ code_parse.alias_name a = name.

(** [name] is listed by a [from ... import] statement of the text without
    an [as] clause of its own. *)
Definition from_imports_plainly (t : code_parse.ast) (name : string) : Prop :=
  ∃ n module names a,
    in_tree t n ∧ code_parse.cls_of n = code_parse.ImportFrom module names
    ∧ a ∈ names ∧ code_parse.alias_name a = name
    ∧ code_parse.alias_asname a = None.

Definition plain_imports (t : code_parse.ast) (name : string) : Prop :=
  ∃ n names a,
    in_tree t n ∧ code_parse.cls_of n = code_parse.Import names
    ∧ a ∈ names ∧ code_parse.alias_name a = name.

Definition imports_as (t : code_parse.ast) (name : string) : Prop :=
  ∃ n module names a,
    in_tree t n ∧ code_parse.cls_of n = code_parse.ImportFrom module names
    ∧ a ∈ names ∧ code_parse.alias_asname a = Some name.

(** The candidate held in the locals of [rollout], if any, has been through
    [append_dependencies]: its dependency list is empty and it carries its
    ['full_code']. *)
Definition drained (l : voyager_agent.locals) : Prop :=
  ∀ pr, voyager_agent.parsed_result l = parsed_result.Dict (Some pr) →
        parsed_result.dependencies pr = [] ∧ is_Some (parsed_result.full_code pr).

(** What [rollout] writes to the task folder for the locals it ends
    with, when they hold the dictionary [d]. *)
Definition record_of (task_id : string) (l : voyager_agent.locals)
    (d : option parsed_result.t) : log.output :=
  log.mk_output (voyager_agent.obs l) (voyager_agent.info l)
    (from_option parsed_result.program_code EmptyString d)
    (default EmptyString (d ≫= parsed_result.full_code))
    task_id
    (critic.success (voyager_agent.critic_out l))
    (critic.critique (voyager_agent.critic_out l))
    (critic.reasoning (voyager_agent.critic_out l)).

(** The index and the metadata map of a skill store have the same keys. *)
Definition synced (self : base_vector_mem.t) : Prop :=
  dom (base_vector_mem.vectordb self) = dom (base_vector_mem.fn_str_map self).

(** The question index and the answer map of a curriculum have the same
    number of entries (what [load_prev] asserts), and what is on disk for
    the two is what is in memory. *)
Definition qa_consistent (b : base_curriculum.t) : Prop :=
  length (base_curriculum.qa_cache_questions_vectordb b)
  = size (base_curriculum.qa_cache b).

Definition qa_mirrored (b : base_curriculum.t)
    (d : base_curriculum.checkpoint) : Prop :=
  base_curriculum.qa_cache_json d = base_curriculum.qa_cache b
  ∧ base_curriculum.vectordb_dir d
    = base_curriculum.qa_cache_questions_vectordb b.

(** What the loop of [run_qa] keeps true from one question to the next:
    the answers collected so far are the cached answers of the questions
    collected so far, one for one. *)
Definition answered (st : voyager_curriculum.qa_loop) : Prop :=
  Forall2 (λ q a,
             base_curriculum.qa_cache (voyager_curriculum.self st) !! q = Some a)
          (voyager_curriculum.questions st) (voyager_curriculum.answers st).

(** The names of the [FunctionDef] nodes of a list of nodes, in the order
    of the list. *)
Definition function_names (l : list code_parse.ast) : list string :=
  omap (λ n, match code_parse.cls_of n with
             | code_parse.FunctionDef name => Some name
             | _ => None
             end) l.

(** An answer [render_human_msg] does not skip. *)
Definition acceptable (pair : string * string) : bool :=
  negb (contains "Answer: Unknown" pair.2 || contains "language model" pair.2).

(** The text [render_human_msg] adds for the pair numbered [i]. *)
Definition question_block (i : nat) (pair : string * string) : string :=
  "Question " +:+ str_of_nat i +:+ ": " +:+ pair.1 +:+ nl
  +:+ (pair.2 +:+ nl +:+ nl).

(** The concatenation of a list of strings. *)
Definition concat_strings (l : list string) : string :=
  foldr String.append EmptyString l.

(** [v] is the smallest integer from 2 on whose versioned name is not in
    the list. *)
Definition smallest_free (excluded_names : list string) (base_name : string)
    (v : nat) : Prop :=
  2 ≤ v
  ∧ (base_vector_mem.versioned base_name v ∉ excluded_names)
  ∧ ∀ w, 2 ≤ w < v → base_vector_mem.versioned base_name w ∈ excluded_names.

(** A similarity search that only finds documents of the collection it
    is given, and at most [k] of them. *)
Definition searches_collection
    (similarity_search : gmap string string → string → nat → list string)
    : Prop :=
  ∀ db query k,
    length (similarity_search db query k) ≤ k
    ∧ Forall (λ name, name ∈ dom db) (similarity_search db query k).

End spec.

(** ** Concrete inputs used by the examples *)

Module examples.

Definition skill_a : entry.t :=
  entry.mk "def a(): return 1" (Some []) "task a" "returns one".
Definition skill_b : entry.t :=
  entry.mk "def b(): return a()" (Some ["a"]) "task b" "calls a".
Definition chain_tables : list (gmap string entry.t) :=
  [ {[ "a" := skill_a ]}; {[ "b" := skill_b ]} ].
Definition candidate_on_b : parsed_result.t :=
  parsed_result.mk "def c(): return b()" "c" ["b"] "raw" true None None.

Definition cyclic_a : entry.t :=
  entry.mk "def a(): return b()" (Some ["b"]) "task a" "calls b".
Definition cyclic_tables : list (gmap string entry.t) :=
  [ {[ "a" := cyclic_a; "b" := skill_b ]} ].
Definition candidate_on_a : parsed_result.t :=
  parsed_result.mk "def c(): return a()" "c" ["a"] "raw" true None None.

(** A store that holds [f] and a second version of it. *)
Definition f_first : entry.t :=
  entry.mk "def f(): return 1" (Some []) "task" "returns one".
Definition f_second : entry.t :=
  entry.mk "def f_v2(): return 2" (Some []) "task" "returns two".
Definition store_f : base_vector_mem.t :=
  base_vector_mem.mk {[ "f" := f_first ]} {[ "f" := "returns one" ]}.
Definition disk_f : base_vector_mem.checkpoint :=
  base_vector_mem.mk_checkpoint {[ "f" := f_first ]} {[ "f" := "returns one" ]}.
Definition store_f2 : base_vector_mem.t :=
  base_vector_mem.mk {[ "f" := f_first; "f_v2" := f_second ]}
                     {[ "f" := "returns one"; "f_v2" := "returns two" ]}.
Definition disk_f2 : base_vector_mem.checkpoint :=
  base_vector_mem.mk_checkpoint
    {[ "f" := f_first; "f_v2" := f_second ]}
    {[ "f" := "returns one"; "f_v2" := "returns two" ]}.
(** The same name with the code of the first, and of the second,
    version. *)
Definition f_again : base_vector_mem.processed_data :=
  base_vector_mem.mk_processed (Some "f") "def f(): return 1" (Some []) "task".
Definition f_other : base_vector_mem.processed_data :=
  base_vector_mem.mk_processed (Some "f") "def f(): return 2" (Some []) "task".
(** A parser that accepts nothing (the names above are given). *)
Definition no_parse : string → option code_parse.ast := λ _, None.

(** A skill checkpoint whose index has five entries and whose
    [entries.json] has four, and a curriculum checkpoint whose question
    index has two entries and whose [qa_cache.json] has one. *)
Definition unsynced_skills : base_vector_mem.checkpoint :=
  base_vector_mem.mk_checkpoint
    {[ "s1" := skill_a; "s2" := skill_a; "s3" := skill_a; "s4" := skill_a ]}
    {[ "s1" := "d"; "s2" := "d"; "s3" := "d"; "s4" := "d"; "s5" := "d" ]}.
Definition unsynced_qa : base_curriculum.checkpoint :=
  base_curriculum.mk_checkpoint [] [] {[ "q1" := "a1" ]} ["q1"; "q2"].

(** A curriculum that has cached one question, an answering model that
    numbers its answers, and a similarity search that always finds the
    cached question at distance 0. *)
Definition cached_q : string := "How do I reverse a list?".
Definition curriculum_q : base_curriculum.t :=
  base_curriculum.mk [] [] {[ cached_q := "Use slicing." ]} [cached_q] [].
Definition curriculum_disk_q : base_curriculum.checkpoint :=
  base_curriculum.mk_checkpoint [] [] {[ cached_q := "Use slicing." ]} [cached_q].
Definition numbered_answers : nat → string → string :=
  λ n _, "answer " +:+ str_of_nat n.
Definition always_near : list string → string → list (string * Q) :=
  λ _ _, [(cached_q, 0%Q)].
Definition never_near : list string → string → list (string * Q) :=
  λ _ _, [(cached_q, 1%Q)].

(** The tree of the text
<<
import foo
from math import sqrt as s
async def g(): pass
def f(x):
    return foo(x) + s(x) + g() + f(x) + len(x)
>>
    with the function body reduced to its calls. *)
Definition call_of (id : string) : code_parse.ast :=
  code_parse.Node code_parse.Call [code_parse.Node (code_parse.Name id) []].
Definition imports_tree : code_parse.ast :=
  code_parse.Node code_parse.Module_
    [ code_parse.Node (code_parse.Import [code_parse.mk_alias "foo" None]) [];
      code_parse.Node
        (code_parse.ImportFrom (Some "math")
           [code_parse.mk_alias "sqrt" (Some "s")]) [];
      code_parse.Node (code_parse.AsyncFunctionDef "g") [];
      code_parse.Node (code_parse.FunctionDef "f")
        [ call_of "foo"; call_of "s"; call_of "g"; call_of "f"; call_of "len" ] ].
Definition some_builtins : gset string := {[ "len"; "print" ]}.

(** An agent with the chain [a], [b] in its skill library, and
    collaborators for two runs: one in which the first candidate is rejected
    by the critic and the model call of the second attempt raises, one in
    which the first candidate is accepted. *)
Definition library : base_vector_mem.t :=
  base_vector_mem.mk {[ "a" := skill_a; "b" := skill_b ]}
                     {[ "a" := "returns one"; "b" := "calls a" ]}.
Definition library_disk : base_vector_mem.checkpoint :=
  base_vector_mem.mk_checkpoint {[ "a" := skill_a; "b" := skill_b ]}
                                {[ "a" := "returns one"; "b" := "calls a" ]}.
Definition agent0 : voyager_agent.t :=
  voyager_agent.mk EmptyString EmptyString EmptyString true false 3
    library library_disk
    (voyager_curriculum.mk curriculum_q EmptyString) curriculum_disk_q
    (log.mk_result_dir ∅ []).
Definition task7 : voyager_agent.full_task :=
  voyager_agent.mk_full_task "Write c" "task-7".
Definition retrieve_none : base_vector_mem.t → string → py_exception + list entry.t :=
  λ _ _, inr [].
Definition gen_then_raise :
    nat → list entry.t → string → string → critic.critic_out → string →
    py_exception + parsed_result.value :=
  λ i _ _ _ _ _,
    if decide (i = 0) then inr (parsed_result.Dict (Some candidate_on_b))
    else inl (Exception "model unavailable").
Definition gen_always :
    nat → list entry.t → string → string → critic.critic_out → string →
    py_exception + parsed_result.value :=
  λ _ _ _ _ _ _, inr (parsed_result.Dict (Some candidate_on_b)).
(** A generation that has no candidate on the first attempt, returning
    [None], and raises on the second. *)
Definition gen_none_then_raise :
    nat → list entry.t → string → string → critic.critic_out → string →
    py_exception + parsed_result.value :=
  λ i _ _ _ _ _,
    if decide (i = 0) then inr parsed_result.PyNone
    else inl (Exception "model unavailable").
Definition step_fails : string → bool → py_exception + (string * bool * option string) :=
  λ _ _, inr ("AssertionError", false, None).
Definition step_passes : string → bool → py_exception + (string * bool * option string) :=
  λ _ _, inr ("passed", true, None).
Definition critic_of_reward :
    string → bool → string → string → py_exception + critic.critic_out :=
  λ obs reward _ _, inr (critic.mk reward obs EmptyString).
Definition describe : parsed_result.t → string → string :=
  λ pr _, "skill " +:+ parsed_result.program_name pr.

(** The same agent configured for testing with execution deferred. *)
Definition agent_deferred : voyager_agent.t :=
  voyager_agent.mk EmptyString EmptyString EmptyString false true 3
    library library_disk
    (voyager_curriculum.mk curriculum_q EmptyString) curriculum_disk_q
    (log.mk_result_dir ∅ []).

(** A similarity search that returns the first [k] names of the
    collection, and a critic whose model always answers with success. *)
Definition first_documents : gmap string string → string → nat → list string :=
  λ db _ k, take k (elements (dom db)).
Definition critic_reward_only : critic.t := critic.mk_t true false "Write c".
Definition model_says_success : string → py_exception + critic.critic_out :=
  λ _, inr (critic.mk true "looks fine" "it runs").

End examples.

(* ===================================================================== *)
(** * Part II: properties                                                 *)
(* ===================================================================== *)

(** ** The task ledger ([clean_up_tasks]) *)

Section ledger.
  Import base_curriculum.

Lemma filter_all {A} (P : A → Prop) `{!∀ x, Decision (P x)} (l : list A) :
  (∀ y, y ∈ l → P y) → filter P l = l.
Proof.
  induction l as [|x l IH]; intros Hall; [done|].
  rewrite filter_cons_True by (apply Hall; left).
  f_equal. apply IH. intros y Hy. apply Hall. by right.
Qed.

Lemma dedup_from (acc l : list string) :
  foldl dedup_step acc l
  = acc ++ filter (λ y, y ∉ acc) (spec.first_occurrences l).
Proof.
  revert acc. induction l as [|x l IH]; intros acc; simpl.
  - by rewrite app_nil_r.
  - rewrite IH. unfold dedup_step. case_decide as Hx.
    + rewrite filter_cons_False by tauto.
      rewrite list_filter_filter. f_equal.
      apply list_filter_iff. intros y. split; [|tauto].
      intros Hy. split; [done|]. intros ->. done.
    + rewrite filter_cons_True by done.
      rewrite <- app_assoc. simpl. do 2 f_equal.
      rewrite list_filter_filter. apply list_filter_iff. intros y.
      rewrite elem_of_app, list_elem_of_singleton. tauto.
Qed.

Lemma dedup_completed_spec (l : list string) :
  dedup_completed l = spec.first_occurrences l.
Proof.
  unfold dedup_completed. rewrite dedup_from. simpl. apply filter_all.
  intros y _. apply not_elem_of_nil.
Qed.

Lemma first_occurrences_elem (l : list string) (x : string) :
  x ∈ spec.first_occurrences l ↔ x ∈ l.
Proof.
  induction l as [|y l IH]; simpl; [done|].
  rewrite !elem_of_cons, list_elem_of_filter, IH.
  destruct (decide (x = y)); tauto.
Qed.

Lemma first_occurrences_NoDup (l : list string) :
  NoDup (spec.first_occurrences l).
Proof.
  induction l as [|y l IH]; simpl; [constructor|].
  constructor.
  - rewrite list_elem_of_filter. tauto.
  - by apply NoDup_filter.
Qed.

Lemma first_occurrences_sublist (l : list string) :
  spec.first_occurrences l `sublist_of` l.
Proof.
  induction l as [|y l IH]; simpl; [done|].
  constructor. etrans; [apply sublist_filter|done].
Qed.

Lemma list_remove_length (x : string) (l : list string) :
  x ∈ l → S (length (list_remove x l)) = length l.
Proof.
  induction l as [|y l IH]; simpl; [by inversion 1|].
  intros Hx. case_decide as E; [done|]. simpl. f_equal. apply IH.
  apply elem_of_cons in Hx as [?|?]; done.
Qed.

Lemma list_remove_filter (x : string) (l : list string) :
  filter (λ y, y ≠ x) (list_remove x l) = filter (λ y, y ≠ x) l.
Proof.
  induction l as [|y l IH]; simpl; [done|].
  case_decide as E.
  - subst. by rewrite filter_cons_False by tauto.
  - rewrite !filter_cons_True by done. by rewrite IH.
Qed.

Lemma remove_while_spec (fuel : nat) (task : string) (failed : list string) :
  length failed ≤ fuel →
  remove_while fuel task failed = Some (filter (λ y, y ≠ task) failed).
Proof.
  revert failed. induction fuel as [|k IH]; intros failed Hlen.
  - destruct failed; [done|simpl in Hlen; lia].
  - simpl. case_decide as H.
    + rewrite IH.
      * by rewrite list_remove_filter.
      * apply list_remove_length in H. lia.
    + f_equal. symmetry. apply filter_all.
      intros y Hy ->. done.
Qed.

Lemma remove_completed_spec (updated failed : list string) :
  remove_completed updated failed
  = Some (filter (λ y, y ∉ updated) failed).
Proof.
  revert failed. induction updated as [|t updated IH]; intros failed; simpl.
  - f_equal. symmetry. apply filter_all. intros y _. apply not_elem_of_nil.
  - rewrite remove_while_spec by done. rewrite IH.
    rewrite list_filter_filter. f_equal. apply list_filter_iff.
    intros y. rewrite not_elem_of_cons. tauto.
Qed.

Lemma clean_up_tasks_spec (self : t) (disk : checkpoint) :
  clean_up_tasks self disk
  = let completed := spec.first_occurrences (completed_tasks self) in
    let failed := filter (λ y, y ∉ completed) (failed_tasks self) in
    Some (mk completed failed (qa_cache self)
             (qa_cache_questions_vectordb self) (qa_calls self),
          mk_checkpoint completed failed (qa_cache_json disk)
                        (vectordb_dir disk)).
Proof.
  unfold clean_up_tasks. rewrite remove_completed_spec.
  by rewrite dedup_completed_spec.
Qed.
End ledger.

(** C6. After every [update_exploration_progress] call (which appends the
    task to one ledger and runs [clean_up_tasks]) the call returns, the
    completed list has no duplicates and is the list of first occurrences of
    the tasks recorded so far, in their order (a sublist with the same
    members); no task of the completed list is left in the failed list, which
    otherwise keeps its entries and order; both lists are what is written to
    disk. In particular, for distinct [T1], [T2], [T3], cleaning up
    completed = [T1, T1, T2] and failed = [T1, T3] gives completed = [T1, T2]
    and failed = [T3]. *)
Theorem C6_ledger_cleanup :
  (∀ (self : base_curriculum.t) (disk : base_curriculum.checkpoint)
     (task : string) (success : bool),
     let completed_in :=
       if success then base_curriculum.completed_tasks self ++ [task]
       else base_curriculum.completed_tasks self in
     let failed_in :=
       if success then base_curriculum.failed_tasks self
       else base_curriculum.failed_tasks self ++ [task] in
     ∃ self' disk',
       base_curriculum.update_exploration_progress self disk task success
       = Some (self', disk')
       ∧ NoDup (base_curriculum.completed_tasks self')
       ∧ base_curriculum.completed_tasks self' = spec.first_occurrences completed_in
       ∧ base_curriculum.completed_tasks self' `sublist_of` completed_in
       ∧ (∀ x, x ∈ base_curriculum.completed_tasks self' ↔ x ∈ completed_in)
       ∧ (∀ x, x ∈ base_curriculum.completed_tasks self' →
               x ∉ base_curriculum.failed_tasks self')
       ∧ base_curriculum.failed_tasks self'
         = filter (λ y, y ∉ base_curriculum.completed_tasks self') failed_in
       ∧ base_curriculum.completed_tasks_json disk'
         = base_curriculum.completed_tasks self'
       ∧ base_curriculum.failed_tasks_json disk'
         = base_curriculum.failed_tasks self')
  ∧ (∀ (T1 T2 T3 : string) (self : base_curriculum.t)
       (disk : base_curriculum.checkpoint),
       T1 ≠ T2 → T3 ≠ T1 → T3 ≠ T2 →
       base_curriculum.completed_tasks self = [T1; T1; T2] →
       base_curriculum.failed_tasks self = [T1; T3] →
       ∃ self' disk',
         base_curriculum.clean_up_tasks self disk = Some (self', disk')
         ∧ base_curriculum.completed_tasks self' = [T1; T2]
         ∧ base_curriculum.failed_tasks self' = [T3]).
Proof.
  split.
  - intros self disk task success completed_in failed_in.
    unfold base_curriculum.update_exploration_progress.
    rewrite clean_up_tasks_spec.
    eexists _, _. split; [reflexivity|]. simpl.
    replace (base_curriculum.completed_tasks (if success then _ else _))
      with completed_in by (by destruct success).
    replace (base_curriculum.failed_tasks (if success then _ else _))
      with failed_in by (by destruct success).
    repeat split.
    + apply first_occurrences_NoDup.
    + apply first_occurrences_sublist.
    + by apply first_occurrences_elem.
    + by apply first_occurrences_elem.
    + intros x Hx [Hnot _]%list_elem_of_filter. done.
  - intros T1 T2 T3 self disk H12 H31 H32 Hc Hf.
    rewrite clean_up_tasks_spec. eexists _, _. split; [reflexivity|].
    simpl. rewrite Hc, Hf.
    assert (Hfo : spec.first_occurrences [T1; T1; T2] = [T1; T2]).
    { cbn. repeat (case_decide; cbn); congruence. }
    rewrite Hfo. split; [done|].
    rewrite filter_cons_False by (intros Hn; apply Hn; left).
    apply filter_all. intros y ->%list_elem_of_singleton.
    rewrite !not_elem_of_cons. split_and!; [done..|]. apply not_elem_of_nil.
Qed.

Lemma C6_ledger_cleanup_witness :
  ∃ self' disk',
    base_curriculum.clean_up_tasks
      (base_curriculum.mk ["T1"; "T1"; "T2"] ["T1"; "T3"] ∅ [] [])
      (base_curriculum.mk_checkpoint [] [] ∅ [])
    = Some (self', disk')
    ∧ base_curriculum.completed_tasks self' = ["T1"; "T2"]
    ∧ base_curriculum.failed_tasks self' = ["T3"].
Proof.
  apply (proj2 C6_ledger_cleanup "T1" "T2" "T3"); done.
Defined.

(** ** The dependency resolver ([append_dependencies]) *)

Section resolver.
  Import code_parse.
  Variable tables : list (gmap string entry.t).

Lemma resolve_loop_done (k : nat) (st : loop_state) :
  queue st = [] → resolve_loop k tables st = Some st.
Proof. intros Hq. destruct k; simpl; by rewrite Hq. Qed.

Lemma resolve_loop_step (k : nat) (st : loop_state) c rest :
  queue st = c :: rest →
  resolve_loop (S k) tables st
  = resolve_loop k tables (loop_body tables c rest st).
Proof. intros Hq. simpl. by rewrite Hq. Qed.

(** More fuel does not change a result. *)
Lemma resolve_loop_mono (k k' : nat) (st r : loop_state) :
  resolve_loop k tables st = Some r → k ≤ k' →
  resolve_loop k' tables st = Some r.
Proof.
  revert k' st. induction k as [|k IH]; intros k' st Hr Hle.
  - destruct (queue st) as [|c rest] eqn:Hq.
    + rewrite resolve_loop_done in Hr by done.
      by rewrite resolve_loop_done.
    + simpl in Hr. by rewrite Hq in Hr.
  - destruct (queue st) as [|c rest] eqn:Hq.
    + rewrite resolve_loop_done in Hr by done.
      by rewrite resolve_loop_done.
    + destruct k' as [|k']; [lia|].
      rewrite (resolve_loop_step k _ c rest) in Hr by done.
      rewrite (resolve_loop_step k' _ c rest) by done.
      apply IH; [done|lia].
Qed.

Lemma lookup_tables_names (n : string) :
  is_Some (lookup_tables tables n) → n ∈ table_names tables.
Proof.
  unfold table_names. induction tables as [|m l IH]; simpl.
  - by intros [? ?].
  - destruct (m !! n) eqn:Hm.
    + intros _. apply elem_of_union_l, elem_of_dom. eauto.
    + intros H. apply elem_of_union_r. by apply IH.
Qed.

Lemma pending_visit (seen : gset string) (c : string) :
  is_Some (lookup_tables tables c) → c ∉ seen →
  pending tables seen
  = length (recorded tables c) + pending tables ({[c]} ∪ seen).
Proof.
  intros Hc Hseen. unfold pending.
  assert (Heq : table_names tables ∖ seen
                = {[c]} ∪ table_names tables ∖ ({[c]} ∪ seen)).
  { apply lookup_tables_names in Hc. apply set_eq. intros x.
    rewrite elem_of_union, !elem_of_difference, elem_of_union,
      elem_of_singleton.
    destruct (decide (x = c)) as [->|Hne]; [tauto|].
    split; [|intros [?|[? ?]]; [done|tauto]].
    intros [? ?]. right. split; [done|]. by intros [?|?]. }
  rewrite Heq at 1.
  rewrite elements_union_singleton; [done|].
  rewrite elem_of_difference, elem_of_union, elem_of_singleton. tauto.
Qed.

(** Every pass through the loop body uses up one unit of [resolve_fuel]. *)
Lemma loop_body_fuel (st : loop_state) c rest :
  queue st = c :: rest →
  S (resolve_fuel tables (loop_body tables c rest st))
  = resolve_fuel tables st.
Proof.
  intros Hq. unfold resolve_fuel, loop_body. rewrite Hq.
  case_decide as Hv; simpl; [done|].
  destruct (lookup_tables tables c) as [e|] eqn:He; simpl; [|done].
  rewrite (pending_visit (visited st) c) by (rewrite ?He; eauto).
  rewrite length_app. unfold recorded. rewrite He. lia.
Qed.

(** Termination: with [resolve_fuel] (or more) the loop finishes, and it
    finishes with an empty queue. *)
Lemma resolve_loop_terminates (k : nat) (st : loop_state) :
  resolve_fuel tables st ≤ k →
  ∃ r, resolve_loop k tables st = Some r ∧ queue r = [].
Proof.
  revert st. induction k as [|k IH]; intros st Hk.
  - destruct (queue st) as [|c rest] eqn:Hq.
    + exists st. by rewrite resolve_loop_done.
    + unfold resolve_fuel in Hk. rewrite Hq in Hk. simpl in Hk. lia.
  - destruct (queue st) as [|c rest] eqn:Hq.
    + exists st. by rewrite resolve_loop_done.
    + rewrite (resolve_loop_step _ _ c rest) by done.
      apply IH. pose proof (loop_body_fuel st c rest Hq). lia.
Qed.

(** *** The loop invariant *)

(** [order] lists the names visited so far, in the order of discovery. *)
Record inv (roots : list string) (order : list string) (st : loop_state)
    : Prop := mk_inv {
  inv_nodup : NoDup order;
  inv_visited : visited st = list_to_set order;
  inv_codes : dependent_code st = spec.codes tables order;
  inv_sound : ∀ n, n ∈ order → spec.reachable tables roots n;
  inv_queue : ∀ n, n ∈ queue st → is_Some (lookup_tables tables n) →
                   spec.reachable tables roots n;
  inv_roots : ∀ n, n ∈ roots → is_Some (lookup_tables tables n) →
                   n ∈ order ∨ n ∈ queue st;
  inv_closed : ∀ m n, m ∈ order → n ∈ recorded tables m →
                      is_Some (lookup_tables tables n) →
                      n ∈ order ∨ n ∈ queue st;
}.

Lemma inv_init (roots : list string) :
  inv roots [] (mk_loop roots ∅ [] []).
Proof.
  split; simpl; try done.
  - constructor.
  - intros n Hn. by inversion Hn.
  - intros n Hn Hs. by apply spec.reach_root.
  - intros n Hn _. by right.
  - intros m n Hm. by inversion Hm.
Qed.

Lemma inv_step (roots order : list string) (st : loop_state) c rest :
  queue st = c :: rest →
  inv roots order st →
  ∃ order', inv roots order' (loop_body tables c rest st).
Proof.
  intros Hq [Hnd Hvis Hcodes Hsound Hqueue Hroots Hclosed].
  rewrite Hq in Hqueue, Hroots, Hclosed.
  unfold loop_body. case_decide as Hv.
  - (* already visited *)
    exists order. rewrite Hvis, elem_of_list_to_set in Hv.
    split; simpl; try done.
    + intros n Hn. apply Hqueue. by right.
    + intros n Hn Hs. destruct (Hroots n Hn Hs) as [?|Hin]; [by left|].
      apply elem_of_cons in Hin as [->|?]; [by left|by right].
    + intros m n Hm Hn Hs. destruct (Hclosed m n Hm Hn Hs) as [?|Hin]; [by left|].
      apply elem_of_cons in Hin as [->|?]; [by left|by right].
  - destruct (lookup_tables tables c) as [e|] eqn:He.
    + (* found: visit it *)
      assert (Hc : c ∉ order) by (by rewrite Hvis, elem_of_list_to_set in Hv).
      assert (Hreach : spec.reachable tables roots c).
      { apply Hqueue; [by left|]. rewrite He. eauto. }
      assert (Hrec : recorded tables c = default [] (entry.dependencies e)).
      { unfold recorded. by rewrite He. }
      exists (order ++ [c]). split; simpl.
      * apply NoDup_app. split_and!; [done| |apply NoDup_singleton].
        intros x Hx ->%list_elem_of_singleton. done.
      * rewrite Hvis, list_to_set_app_L. simpl.
        rewrite (right_id_L ∅ (∪)). apply (comm_L (∪)).
      * rewrite Hcodes. unfold spec.codes. rewrite fmap_app. simpl.
        do 2 f_equal. unfold spec.code_of. by rewrite He.
      * intros n [? | ->%list_elem_of_singleton]%elem_of_app; auto.
      * intros n [Hn|Hn]%elem_of_app Hs.
        -- apply Hqueue; [by right|done].
        -- apply (spec.reach_dep _ _ c); [done| |done]. by rewrite Hrec.
      * intros n Hn Hs. rewrite !elem_of_app.
        destruct (Hroots n Hn Hs) as [?|Hin]; [by left; left|].
        apply elem_of_cons in Hin as [->|?]; [left; right; by left|by right; left].
      * intros m n [Hm | ->%list_elem_of_singleton]%elem_of_app Hn Hs;
          rewrite !elem_of_app.
        -- destruct (Hclosed m n Hm Hn Hs) as [?|Hin]; [by left; left|].
           apply elem_of_cons in Hin as [->|?];
             [left; right; by left|by right; left].
        -- right; right. by rewrite <- Hrec.
    + (* not in any table: warn and go on *)
      exists order. split; simpl; try done.
      * intros n Hn. apply Hqueue. by right.
      * intros n Hn Hs. destruct (Hroots n Hn Hs) as [?|Hin]; [by left|].
        apply elem_of_cons in Hin as [->|?]; [|by right].
        rewrite He in Hs. by destruct Hs.
      * intros m n Hm Hn Hs. destruct (Hclosed m n Hm Hn Hs) as [?|Hin]; [by left|].
        apply elem_of_cons in Hin as [->|?]; [|by right].
        rewrite He in Hs. by destruct Hs.
Qed.

Lemma inv_resolve_loop (roots : list string) (k : nat) :
  ∀ order st r,
    inv roots order st → resolve_loop k tables st = Some r →
    ∃ order', inv roots order' r.
Proof.
  induction k as [|k IH]; intros order st r Hinv Hr.
  - destruct (queue st) as [|c rest] eqn:Hq.
    + rewrite resolve_loop_done in Hr by done. simplify_eq. eauto.
    + simpl in Hr. by rewrite Hq in Hr.
  - destruct (queue st) as [|c rest] eqn:Hq.
    + rewrite resolve_loop_done in Hr by done. simplify_eq. eauto.
    + rewrite (resolve_loop_step _ _ c rest) in Hr by done.
      destruct (inv_step roots order st c rest Hq Hinv) as [order' Hinv'].
      eauto.
Qed.

(** With an empty queue the visited names are exactly the reachable
    ones. *)
Lemma inv_complete (roots order : list string) (st : loop_state) :
  inv roots order st → queue st = [] →
  ∀ n, n ∈ order ↔ spec.reachable tables roots n.
Proof.
  intros [Hnd Hvis Hcodes Hsound Hqueue Hroots Hclosed] Hq n.
  rewrite Hq in Hroots, Hclosed.
  split; [apply Hsound|].
  induction 1 as [n Hn Hs|m n _ IH Hn Hs].
  - destruct (Hroots n Hn Hs) as [?|Hin]; [done|by inversion Hin].
  - destruct (Hclosed m n IH Hn Hs) as [?|Hin]; [done|by inversion Hin].
Qed.

(** [append_dependencies] unfolded: it returns, its loop has emptied the
    queue, and the text is assembled from the accumulation list. *)
Lemma append_dependencies_spec (pr : parsed_result.t) :
  ∃ st,
    resolve_loop (resolve_fuel tables (mk_loop (parsed_result.dependencies pr) ∅ [] []))
                 tables (mk_loop (parsed_result.dependencies pr) ∅ [] [])
    = Some st
    ∧ queue st = []
    ∧ append_dependencies pr tables
      = let full_code :=
          join (nl +:+ nl)
               (rev (dependent_code st) ++ [parsed_result.program_code pr]) in
        Some (parsed_result.set_full_code full_code
                (parsed_result.set_dependencies [] pr), full_code).
Proof.
  destruct (resolve_loop_terminates _ (mk_loop (parsed_result.dependencies pr) ∅ [] [])
              (Nat.le_refl _)) as (st & Hst & Hq).
  exists st. split_and!; [done..|].
  unfold append_dependencies. rewrite Hst. simpl. by rewrite Hq.
Qed.

(** A run that finishes on some fuel is the run of [append_dependencies]. *)
Lemma append_dependencies_run (pr : parsed_result.t) (k : nat) (st : loop_state) :
  resolve_loop k tables (mk_loop (parsed_result.dependencies pr) ∅ [] []) = Some st →
  append_dependencies pr tables
  = let full_code :=
      join (nl +:+ nl)
           (rev (dependent_code st) ++ [parsed_result.program_code pr]) in
    Some (parsed_result.set_full_code full_code
            (parsed_result.set_dependencies [] pr), full_code).
Proof.
  intros Hk. destruct (append_dependencies_spec pr) as (st' & Hst' & Hq & ->).
  set (F := resolve_fuel _ _) in Hst'.
  apply (resolve_loop_mono _ (max k F)) in Hk; [|lia].
  apply (resolve_loop_mono _ (max k F)) in Hst'; [|lia].
  by simplify_eq.
Qed.
End resolver.

Section resolver_examples.
  Import code_parse.
  Variable tables : list (gmap string entry.t).

Lemma loop_body_visit (st : loop_state) (c : string) (rest : list string)
    (e : entry.t) :
  c ∉ visited st → lookup_tables tables c = Some e →
  loop_body tables c rest st
  = mk_loop (rest ++ default [] (entry.dependencies e))
            ({[c]} ∪ visited st) (dependent_code st ++ [entry.code e])
            (warnings st).
Proof.
  intros Hv He. unfold loop_body. by rewrite decide_False, He by done.
Qed.

Lemma loop_body_seen (st : loop_state) (c : string) (rest : list string) :
  c ∈ visited st →
  loop_body tables c rest st
  = mk_loop rest (visited st) (dependent_code st) (warnings st).
Proof. intros Hv. unfold loop_body. by rewrite decide_True by done. Qed.

(** Two skills visited one after the other: the first popped name [x]
    records exactly [y] as its dependency list, and [y] brings nothing that
    was not seen yet. *)
Lemma resolve_chain (x y : string) (ex ey : entry.t) :
  x ≠ y →
  lookup_tables tables x = Some ex →
  lookup_tables tables y = Some ey →
  entry.dependencies ex = Some [y] →
  (default [] (entry.dependencies ey) = []
   ∨ default [] (entry.dependencies ey) = [x]) →
  ∃ st, resolve_loop 3 tables (mk_loop [x] ∅ [] []) = Some st
        ∧ dependent_code st = [entry.code ex; entry.code ey].
Proof.
  intros Hxy Hx Hy Hdx Hdy.
  rewrite (resolve_loop_step tables 2 _ x []) by done.
  rewrite loop_body_visit with (e := ex) by (done || apply not_elem_of_empty).
  rewrite Hdx.
  rewrite (resolve_loop_step tables 1 _ y []) by done.
  rewrite loop_body_visit with (e := ey); [|simpl|done].
  - destruct Hdy as [-> | ->].
    + rewrite resolve_loop_done by done. eauto.
    + rewrite (resolve_loop_step tables 0 _ x []) by done.
      rewrite loop_body_seen.
      * rewrite resolve_loop_done by done. eauto.
      * simpl. apply elem_of_union_r, elem_of_union_l. by apply elem_of_singleton.
  - rewrite elem_of_union, elem_of_singleton.
    intros [?|Hin]; [done|by apply not_elem_of_empty in Hin].
Qed.
End resolver_examples.

(** C3. When the tables give skill [a] no dependencies and skill [b] the
    dependency list [a], resolving a candidate whose dependency list is [b]
    returns the text made of [a]'s code, then [b]'s code, then the
    candidate's own code, each once, joined by blank lines. In general the
    text returned is the accumulation list of the loop, reversed, with the
    candidate's code appended last. *)
Theorem C3_dependency_closure_order :
  (∀ (tables : list (gmap string entry.t)) (pr : parsed_result.t)
     (a b : string) (ea eb : entry.t),
     code_parse.lookup_tables tables a = Some ea →
     default [] (entry.dependencies ea) = [] →
     code_parse.lookup_tables tables b = Some eb →
     entry.dependencies eb = Some [a] →
     parsed_result.dependencies pr = [b] →
     ∃ pr',
       code_parse.append_dependencies pr tables
       = Some (pr', join (nl +:+ nl)
                         [entry.code ea; entry.code eb;
                          parsed_result.program_code pr]))
  ∧ (∀ (tables : list (gmap string entry.t)) (pr pr' : parsed_result.t)
       (full : string),
       code_parse.append_dependencies pr tables = Some (pr', full) →
       ∃ k st,
         code_parse.resolve_loop k tables
           (code_parse.mk_loop (parsed_result.dependencies pr) ∅ [] []) = Some st
         ∧ code_parse.queue st = []
         ∧ full = join (nl +:+ nl)
                       (rev (code_parse.dependent_code st)
                        ++ [parsed_result.program_code pr])).
Proof.
  split.
  - intros tables pr a b ea eb Ha Hda Hb Hdb Hpr.
    assert (Hab : b ≠ a).
    { intros ->. simplify_eq. by rewrite Hdb in Hda. }
    destruct (resolve_chain tables b a eb ea Hab Hb Ha Hdb (or_introl Hda))
      as (st & Hst & Hcode).
    rewrite <- Hpr in Hst.
    rewrite (append_dependencies_run tables pr 3 st Hst). simpl.
    rewrite Hcode. simpl. eauto.
  - intros tables pr pr' full Happ.
    destruct (append_dependencies_spec tables pr) as (st & Hst & Hq & Heq).
    rewrite Heq in Happ. simpl in Happ. simplify_eq. eauto.
Qed.

Lemma C3_dependency_closure_order_witness :
  ∃ pr',
    code_parse.append_dependencies examples.candidate_on_b examples.chain_tables
    = Some (pr', join (nl +:+ nl)
                      ["def a(): return 1"; "def b(): return a()";
                       "def c(): return b()"]).
Proof.
  exact (proj1 C3_dependency_closure_order
           examples.chain_tables examples.candidate_on_b "a" "b"
           examples.skill_a examples.skill_b
           eq_refl eq_refl eq_refl eq_refl eq_refl).
Defined.

(** C4. For every list of tables, cyclic or not, and every candidate, the
    resolution returns; the text it returns is assembled from the codes of a
    duplicate-free list of names followed by the candidate's code, and the
    names of that list are exactly the skills reachable from the candidate's
    dependency list: each reachable skill is included once. In particular,
    when [a] records [b] and [b] records [a], a candidate depending on [a]
    gets [b]'s code, [a]'s code and its own code, each once. *)
Theorem C4_cycle_termination :
  (∀ (tables : list (gmap string entry.t)) (pr : parsed_result.t),
     ∃ pr' full order,
       code_parse.append_dependencies pr tables = Some (pr', full)
       ∧ NoDup order
       ∧ (∀ n, n ∈ order
               ↔ spec.reachable tables (parsed_result.dependencies pr) n)
       ∧ full = join (nl +:+ nl)
                     (rev (spec.codes tables order)
                      ++ [parsed_result.program_code pr]))
  ∧ (∀ (tables : list (gmap string entry.t)) (pr : parsed_result.t)
       (a b : string) (ea eb : entry.t),
       a ≠ b →
       code_parse.lookup_tables tables a = Some ea →
       entry.dependencies ea = Some [b] →
       code_parse.lookup_tables tables b = Some eb →
       entry.dependencies eb = Some [a] →
       parsed_result.dependencies pr = [a] →
       ∃ pr',
         code_parse.append_dependencies pr tables
         = Some (pr', join (nl +:+ nl)
                           [entry.code eb; entry.code ea;
                            parsed_result.program_code pr])).
Proof.
  split.
  - intros tables pr.
    destruct (append_dependencies_spec tables pr) as (st & Hst & Hq & Heq).
    destruct (inv_resolve_loop tables (parsed_result.dependencies pr) _ [] _ st
                (inv_init tables _) Hst) as [order Hinv].
    eexists _, _, order. split; [exact Heq|].
    split; [apply (inv_nodup _ _ _ _ Hinv)|].
    split; [by apply (inv_complete tables _ _ st)|].
    by rewrite (inv_codes _ _ _ _ Hinv).
  - intros tables pr a b ea eb Hab Ha Hda Hb Hdb Hpr.
    assert (Hdb' : default [] (entry.dependencies eb) = [a]) by by rewrite Hdb.
    destruct (resolve_chain tables a b ea eb Hab Ha Hb Hda (or_intror Hdb'))
      as (st & Hst & Hcode).
    rewrite <- Hpr in Hst.
    rewrite (append_dependencies_run tables pr 3 st Hst). simpl.
    rewrite Hcode. simpl. eauto.
Qed.

Lemma C4_cycle_termination_witness :
  ∃ pr',
    code_parse.append_dependencies examples.candidate_on_a examples.cyclic_tables
    = Some (pr', join (nl +:+ nl)
                      ["def b(): return a()"; "def a(): return b()";
                       "def c(): return a()"]).
Proof.
  refine (proj2 C4_cycle_termination
            examples.cyclic_tables examples.candidate_on_a "a" "b"
            examples.cyclic_a examples.skill_b
            _ eq_refl eq_refl eq_refl eq_refl eq_refl).
  discriminate.
Defined.

(** ** Strings: [replace] *)

Section strings.

Lemma append_cons (c : Ascii.ascii) (s t : string) :
  String c s +:+ t = String c (s +:+ t).
Proof. reflexivity. Qed.

Lemma append_nil_l (t : string) : EmptyString +:+ t = t.
Proof. reflexivity. Qed.

Lemma append_nil_r (s : string) : s +:+ EmptyString = s.
Proof.
  induction s as [|c s IH]; [done|]. by rewrite append_cons, IH.
Qed.

Lemma append_assoc (s1 s2 s3 : string) :
  (s1 +:+ s2) +:+ s3 = s1 +:+ s2 +:+ s3.
Proof.
  induction s1 as [|c s1 IH]; [done|]. by rewrite !append_cons, IH.
Qed.

Lemma length_append (s1 s2 : string) :
  String.length (s1 +:+ s2) = String.length s1 + String.length s2.
Proof.
  induction s1 as [|c s1 IH]; [done|]. rewrite append_cons. simpl. by rewrite IH.
Qed.

Lemma prefix_append (p s : string) : String.prefix p (p +:+ s) = true.
Proof.
  induction p as [|c p IH]; [by destruct s|].
  rewrite append_cons. simpl.
  destruct (Ascii.ascii_dec c c); [done|congruence].
Qed.

Lemma prefix_inv (p s : string) :
  String.prefix p s = true → ∃ rest, s = p +:+ rest.
Proof.
  revert s. induction p as [|c p IH]; intros s Hp.
  - by exists s.
  - destruct s as [|c' s]; [done|]. simpl in Hp.
    destruct (Ascii.ascii_dec c c') as [->|]; [|done].
    destruct (IH s Hp) as [rest ->]. by exists rest.
Qed.

(** The characters of a matched occurrence that are still to be skipped
    are skipped. *)
Lemma replace_go_skip (old new p s : string) :
  replace_go old new (String.length p) (p +:+ s) = replace_go old new 0 s.
Proof.
  induction p as [|c p IH]; [done|]. rewrite append_cons. simpl. apply IH.
Qed.

(** The three equations of [replace]: nothing left; an occurrence at the
    head is rewritten and the scan goes on after it; a character that
    starts no occurrence is copied. *)
Lemma replace_nil (old new : string) : replace old new EmptyString = EmptyString.
Proof. done. Qed.

Lemma replace_occurrence (old new s : string) :
  old ≠ EmptyString →
  replace old new (old +:+ s) = new +:+ replace old new s.
Proof.
  intros Hold. destruct old as [|c p]; [done|].
  unfold replace. rewrite append_cons. cbn [replace_go].
  rewrite <- append_cons, prefix_append. cbn [String.length].
  rewrite Nat.sub_succ, Nat.sub_0_r. by rewrite replace_go_skip.
Qed.

Lemma replace_other (old new : string) (c : Ascii.ascii) (s : string) :
  String.prefix old (String c s) = false →
  replace old new (String c s) = String c (replace old new s).
Proof. intros Hp. unfold replace. cbn [replace_go]. by rewrite Hp. Qed.

(** Rewriting a token to itself changes nothing. *)
Lemma replace_same_bounded (old : string) (n : nat) :
  old ≠ EmptyString →
  ∀ s, String.length s ≤ n → replace old old s = s.
Proof.
  intros Hold. induction n as [|n IH]; intros s Hlen.
  - destruct s; [done|simpl in Hlen; lia].
  - destruct s as [|c s]; [done|].
    destruct (String.prefix old (String c s)) eqn:Hp.
    + destruct (prefix_inv _ _ Hp) as [rest Hrest].
      rewrite Hrest, replace_occurrence by done. f_equal. apply IH.
      rewrite Hrest, length_append in Hlen.
      destruct old; [done|]. simpl in Hlen. lia.
    + rewrite replace_other by done. f_equal. apply IH.
      simpl in Hlen. lia.
Qed.

Lemma replace_same (old s : string) :
  old ≠ EmptyString → replace old old s = s.
Proof. intros Hold. by apply (replace_same_bounded old (String.length s)). Qed.

Lemma header_nonempty (name : string) : name +:+ "(" ≠ EmptyString.
Proof. by destruct name. Qed.

End strings.

(** ** Skill names ([add_code]) *)

Section names.
  Import base_vector_mem.
  Variable m : gmap string entry.t.
  Variable old_name : string.

Lemma versioned_inj (v w : nat) :
  versioned old_name v = versioned old_name w → v = w.
Proof.
  unfold versioned, str_of_nat. intros H.
  apply (inj (String.append old_name)) in H.
  apply (inj (String.append "_v")) in H.
  by apply (inj pretty) in H.
Qed.

Lemma versioned_ne (v : nat) : versioned old_name v ≠ old_name.
Proof.
  unfold versioned. intros H.
  rewrite <- (append_nil_r old_name) in H at 2.
  by apply (inj (String.append old_name)) in H.
Qed.

Lemma name_at_1 : spec.name_at old_name 1 = old_name.
Proof. done. Qed.

Lemma name_at_versioned (v : nat) :
  2 ≤ v → spec.name_at old_name v = versioned old_name v.
Proof. intros Hv. unfold spec.name_at. by rewrite decide_False by lia. Qed.

Lemma name_at_inj (v w : nat) :
  spec.name_at old_name v = spec.name_at old_name w → 1 ≤ v → 1 ≤ w → v = w.
Proof.
  unfold spec.name_at. intros H Hv Hw.
  repeat case_decide; subst; try done.
  - symmetry in H. by apply versioned_ne in H.
  - by apply versioned_ne in H.
  - by apply versioned_inj.
Qed.

(** Pigeonhole: the names tried are distinct, so the map cannot hold more
    of them than it has keys. *)
Lemma tried_names_bounded (n : nat) :
  (∀ w, 1 ≤ w ≤ n → is_Some (m !! spec.name_at old_name w)) → n ≤ size m.
Proof.
  intros Hall.
  set (l := spec.name_at old_name <$> seq 1 n).
  assert (Hnd : NoDup l).
  { apply NoDup_fmap_2_strong; [|apply NoDup_seq].
    intros v w Hv%elem_of_seq Hw%elem_of_seq Heq.
    apply name_at_inj; [done|lia..]. }
  assert (Hsub : list_to_set l ⊆ dom m).
  { intros x [w [-> Hw%elem_of_seq]]%elem_of_list_to_set%list_elem_of_fmap.
    apply elem_of_dom, Hall. lia. }
  apply subseteq_size in Hsub.
  rewrite size_list_to_set, size_dom in Hsub by done.
  unfold l in Hsub. by rewrite length_fmap, length_seq in Hsub.
Qed.

Lemma first_unused_upto (n : nat) :
  (∀ w, 1 ≤ w ≤ n → is_Some (m !! spec.name_at old_name w))
  ∨ ∃ v, 1 ≤ v ≤ n
         ∧ m !! spec.name_at old_name v = None
         ∧ ∀ w, 1 ≤ w < v → is_Some (m !! spec.name_at old_name w).
Proof.
  induction n as [|n [IH|IH]].
  - left. intros w Hw. lia.
  - destruct (m !! spec.name_at old_name (S n)) eqn:Hn.
    + left. intros w Hw. destruct (decide (w = S n)) as [->|].
      * rewrite Hn. eauto.
      * apply IH. lia.
    + right. exists (S n). split_and!; [lia|lia|done|].
      intros w Hw. apply IH. lia.
  - right. destruct IH as (v & Hv & Hnone & Hbelow).
    exists v. split_and!; [lia|lia|done..].
Qed.

(** Some name is unused, and the first unused one is reached within
    [size m] renamings. *)
Lemma first_unused_exists :
  ∃ v, 1 ≤ v ≤ S (size m)
       ∧ m !! spec.name_at old_name v = None
       ∧ ∀ w, 1 ≤ w < v → is_Some (m !! spec.name_at old_name w).
Proof.
  destruct (first_unused_upto (S (size m))) as [Hall|Hv]; [|done].
  apply tried_names_bounded in Hall. lia.
Qed.

Lemma name_loop_fresh (k : nat) (prevent : bool) (code name : string)
    (ver : nat) :
  m !! name = None →
  name_loop k m prevent code old_name name ver = Some (Fresh name ver).
Proof. intros Hn. destruct k; simpl; by rewrite Hn. Qed.

Lemma name_loop_skip (k : nat) (code name : string) (ver : nat)
    (stored : entry.t) :
  m !! name = Some stored →
  code = replace (name +:+ "(") (old_name +:+ "(") (entry.code stored) →
  name_loop k m true code old_name name ver = Some Skip.
Proof.
  intros Hn Hc. destruct k; simpl; rewrite Hn; simpl;
    by rewrite bool_decide_eq_true_2.
Qed.

Lemma name_loop_next (k : nat) (prevent : bool) (code name : string)
    (ver : nat) (stored : entry.t) :
  m !! name = Some stored →
  (prevent = true →
   code ≠ replace (name +:+ "(") (old_name +:+ "(") (entry.code stored)) →
  name_loop (S k) m prevent code old_name name ver
  = name_loop k m prevent code old_name (versioned old_name (S ver)) (S ver).
Proof.
  intros Hn Hc. simpl. rewrite Hn.
  destruct prevent; simpl; [|done].
  by rewrite bool_decide_eq_false_2 by auto.
Qed.

(** The loop run up to the first unused name [v], when no duplicate test
    on the way succeeds. *)
Lemma name_loop_run (prevent : bool) (code : string) (v : nat) :
  m !! spec.name_at old_name v = None →
  ∀ k ver,
    1 ≤ ver ≤ v → v - ver ≤ k →
    (∀ w, ver ≤ w < v → is_Some (m !! spec.name_at old_name w)) →
    (prevent = true →
     ∀ w, ver ≤ w < v → ¬ spec.same_as_stored m old_name code w) →
    name_loop k m prevent code old_name (spec.name_at old_name ver) ver
    = Some (Fresh (spec.name_at old_name v) v).
Proof.
  intros Hv k. induction k as [|k IH]; intros ver Hver Hk Hbelow Hdiff.
  - assert (ver = v) as -> by lia. by apply name_loop_fresh.
  - destruct (decide (ver = v)) as [->|Hne]; [by apply name_loop_fresh|].
    destruct (Hbelow ver) as [stored Hstored]; [lia|].
    rewrite (name_loop_next _ _ _ _ _ stored); [|done|].
    + rewrite <- (name_at_versioned (S ver)) by lia.
      apply IH; [lia|lia| |].
      * intros w Hw. apply Hbelow. lia.
      * intros Hp w Hw. apply Hdiff; [done|lia].
    + intros Hp Hc. apply (Hdiff Hp ver); [lia|]. by exists stored.
Qed.

(** The loop always ends within [size m] renamings. *)
Lemma name_loop_total_from (prevent : bool) (code : string) (v : nat) :
  m !! spec.name_at old_name v = None →
  ∀ k ver,
    1 ≤ ver ≤ v → v - ver ≤ k →
    ∃ r, name_loop k m prevent code old_name (spec.name_at old_name ver) ver
         = Some r.
Proof.
  intros Hv k. induction k as [|k IH]; intros ver Hver Hk.
  - assert (ver = v) as -> by lia. rewrite name_loop_fresh by done. eauto.
  - destruct (m !! spec.name_at old_name ver) as [stored|] eqn:Hstored;
      [|rewrite name_loop_fresh by done; eauto].
    assert (ver ≠ v) by (intros ->; congruence).
    destruct prevent.
    + destruct (decide (code = replace (spec.name_at old_name ver +:+ "(")
                                       (old_name +:+ "(") (entry.code stored)))
        as [Hc|Hc].
      * rewrite (name_loop_skip _ _ _ _ stored) by done. eauto.
      * rewrite (name_loop_next _ _ _ _ _ stored) by done.
        rewrite <- (name_at_versioned (S ver)) by lia. apply IH; lia.
    + rewrite (name_loop_next _ _ _ _ _ stored) by done.
      rewrite <- (name_at_versioned (S ver)) by lia. apply IH; lia.
Qed.

Lemma name_loop_total (prevent : bool) (code : string) :
  ∃ r, name_loop (size m) m prevent code old_name old_name 1 = Some r.
Proof.
  destruct first_unused_exists as (v & Hv & Hnone & _).
  apply (name_loop_total_from prevent code v Hnone (size m) 1); lia.
Qed.
End names.

(** C1 (as amended). For every store that already holds a skill under the
    name [f], adding a skill whose derived name is [f] stores it under the
    smallest unused versioned name [f_v{v}], [v >= 2], with the header token
    [f(] of its code rewritten to [f_v{v}(] by [replace], and leaves the
    entry under [f] as it was, provided that, when duplicates are to be
    skipped, the new code differs, after the header normalization, from the
    code stored under [f] and under every versioned name the loop passes
    before it reaches the unused one. *)
Theorem C1_versioned_name
    (ast_parse : string → option code_parse.ast)
    (self : base_vector_mem.t) (disk : base_vector_mem.checkpoint)
    (pd : base_vector_mem.processed_data) (description : string)
    (prevent_duplicates : bool) (f : string) (e : entry.t) :
  base_vector_mem.derive_name ast_parse pd = inr f →
  base_vector_mem.fn_str_map self !! f = Some e →
  (prevent_duplicates = true →
   ∀ w, 1 ≤ w →
        spec.tried (base_vector_mem.fn_str_map self) f w →
        ¬ spec.same_as_stored (base_vector_mem.fn_str_map self) f
            (base_vector_mem.code pd) w) →
  spec.stored_versioned ast_parse self disk pd description prevent_duplicates f.
Proof.
  intros Hname Hf Hdiff.
  set (m := base_vector_mem.fn_str_map self) in *.
  destruct (first_unused_exists m f) as (v & Hv & Hnone & Hbelow).
  assert (Hv2 : 2 ≤ v).
  { destruct (decide (v = 1)) as [->|]; [|lia].
    rewrite name_at_1 in Hnone. congruence. }
  assert (Hloop : base_vector_mem.name_loop (size m) m prevent_duplicates
                    (base_vector_mem.code pd) f f 1
                  = Some (base_vector_mem.Fresh (base_vector_mem.versioned f v) v)).
  { rewrite <- (name_at_versioned f v) by done.
    apply (name_loop_run m f prevent_duplicates _ v Hnone (size m) 1); [lia..| |].
    - intros w Hw. apply Hbelow. lia.
    - intros Hp w Hw. apply Hdiff; [done|lia|].
      intros u Hu. apply Hbelow. lia. }
  rewrite name_at_versioned in Hnone by done.
  unfold spec.stored_versioned, base_vector_mem.add_code.
  rewrite Hname. fold m. rewrite Hloop.
  rewrite (decide_True (P := base_vector_mem.versioned f v ≠ f))
    by apply versioned_ne.
  exists v. case_decide; eexists _, _, _.
  all: split_and!; [split_and!; [done..|] |reflexivity|reflexivity|].
  all: try (intros w Hw; rewrite <- name_at_versioned by lia; apply Hbelow; lia).
  all: simpl; apply lookup_insert_ne, versioned_ne.
Qed.

Lemma C1_versioned_name_witness :
  spec.stored_versioned examples.no_parse examples.store_f examples.disk_f
    examples.f_other "returns two" true "f".
Proof.
  apply (C1_versioned_name examples.no_parse examples.store_f examples.disk_f
           examples.f_other "returns two" true "f" examples.f_first).
  - reflexivity.
  - reflexivity.
  - intros _ w Hw Htried (stored & Hstored & Hcode).
    destruct (decide (w = 1)) as [->|Hne].
    + vm_compute in Hstored. injection Hstored as <-. discriminate Hcode.
    + destruct (Htried 2) as [e He]; [lia|]. vm_compute in He. discriminate He.
Defined.

(** C1 as stated fails: with duplicates skipped, a store holding [f] and
    [f_v2], and a new skill named [f] whose code differs from the code
    stored under [f] but is the code stored under [f_v2] with its header
    normalized, nothing is stored. *)
Lemma C1_counterexample :
  base_vector_mem.derive_name examples.no_parse examples.f_other = inr "f"
  ∧ base_vector_mem.fn_str_map examples.store_f2 !! "f" = Some examples.f_first
  ∧ base_vector_mem.code examples.f_other
    ≠ replace "f(" "f(" (entry.code examples.f_first)
  ∧ base_vector_mem.add_code examples.no_parse examples.store_f2
      examples.disk_f2 examples.f_other "returns two" true
    = Some (examples.store_f2, examples.disk_f2, inr None)
  ∧ ¬ spec.stored_versioned examples.no_parse examples.store_f2
        examples.disk_f2 examples.f_other "returns two" true "f".
Proof.
  assert (Hrun : base_vector_mem.add_code examples.no_parse examples.store_f2
                   examples.disk_f2 examples.f_other "returns two" true
                 = Some (examples.store_f2, examples.disk_f2, inr None))
    by (vm_compute; reflexivity).
  split_and!; [reflexivity|reflexivity|by vm_compute|exact Hrun|].
  intros (v & self' & disk' & r & (_ & Hnone & _) & Hadd & Hmap & _).
rewrite Hrun in Hadd. injection Hadd as Hself _ _. rewrite <- Hself in Hmap.
apply (f_equal (λ m : gmap string entry.t,
                  m !! base_vector_mem.versioned "f" v)) in Hmap.
rewrite lookup_insert_eq, Hnone in Hmap. discriminate.
Qed.

(** C2. The failing input: the store holds [f], and [f] is added again
    with the code stored for it and duplicates skipped. The store is left
    as it was, in memory and on disk, as specified; but the call ends
    by the bare [return] of the duplicate branch, so what it returns is
    [None] and not the existing name [f]. *)
Theorem C2_returns_none :
  base_vector_mem.fn_str_map examples.store_f !! "f" = Some examples.f_first
  ∧ base_vector_mem.code examples.f_again = entry.code examples.f_first
  ∧ base_vector_mem.add_code examples.no_parse examples.store_f
      examples.disk_f examples.f_again "returns one" true
    = Some (examples.store_f, examples.disk_f, inr None)
  ∧ ∀ self' disk',
      base_vector_mem.add_code examples.no_parse examples.store_f
        examples.disk_f examples.f_again "returns one" true
      ≠ Some (self', disk', inr (Some "f")).
Proof.
  assert (Hrun : base_vector_mem.add_code examples.no_parse examples.store_f
                   examples.disk_f examples.f_again "returns one" true
                 = Some (examples.store_f, examples.disk_f, inr None))
    by (vm_compute; reflexivity).
  split_and!; [reflexivity|reflexivity|exact Hrun|].
  intros self' disk'. rewrite Hrun. congruence.
Qed.

(** The versioning of the specification's example, run: a second [f] with
    another body is stored as [f_v2], header renamed, next to the first. *)
Example versioning_run :
  (λ r, base_vector_mem.fn_str_map (fst (fst r)))
    <$> base_vector_mem.add_code examples.no_parse examples.store_f
          examples.disk_f examples.f_other "returns two" false
  = Some {[ "f" := examples.f_first;
            "f_v2" := entry.mk "def f_v2(): return 2" (Some []) "task"
                               "returns two" ]}.
Proof. by vm_compute. Qed.

(** ** Loading a store *)

(** C5. Loading the skill store (resuming or not) when the number of
    entries of the persisted index differs from the number of entries of the
    metadata map read, and loading the curriculum with [resume] when the
    number of indexed questions differs from the number of entries of
    [qa_cache.json], raises the [AssertionError] of the consistency check:
    no store object is returned, so no operation on it can follow, and what
    is on disk is left as it was. *)
Theorem C5_consistency_gate :
  (∀ (resume : bool) (disk : base_vector_mem.checkpoint),
     size (base_vector_mem.vectordb_dir disk)
     ≠ size (if resume then base_vector_mem.entries_json disk else ∅) →
     ∃ msg, voyager_procedural_mem.init resume disk
            = (disk, inl (AssertionError msg)))
  ∧ (∀ (disk : base_curriculum.checkpoint),
       length (base_curriculum.vectordb_dir disk)
       ≠ size (base_curriculum.qa_cache_json disk) →
       ∃ msg, base_curriculum.init true disk
              = (disk, inl (AssertionError msg))).
Proof.
  split.
  - intros resume disk Hne. unfold voyager_procedural_mem.init.
    rewrite decide_False by done. eauto.
  - intros disk Hne.
    unfold base_curriculum.init, base_curriculum.load_prev. simpl.
    rewrite decide_False by done. eauto.
Qed.

Lemma C5_consistency_gate_witness :
  (∃ msg, voyager_procedural_mem.init true examples.unsynced_skills
          = (examples.unsynced_skills, inl (AssertionError msg)))
  ∧ (∃ msg, base_curriculum.init true examples.unsynced_qa
            = (examples.unsynced_qa, inl (AssertionError msg))).
Proof.
  split.
  - apply (proj1 C5_consistency_gate true examples.unsynced_skills).
    vm_compute. discriminate.
  - apply (proj2 C5_consistency_gate examples.unsynced_qa).
    vm_compute. discriminate.
Defined.

(** ** The question-answer cache *)

Section qa_cache.
Import base_curriculum voyager_curriculum.
Variable run_answer_questions : nat → string → string.
Variable similarity_search_with_score : list string → string → list (string * Q).

Lemma nearest_cached_Some (b : base_curriculum.t) (question qc : string) :
  nearest_cached similarity_search_with_score b question = Some qc
  ↔ 0 < length (qa_cache_questions_vectordb b)
    ∧ ∃ score rest,
        similarity_search_with_score (qa_cache_questions_vectordb b) question
        = (qc, score) :: rest
        ∧ (score < 5 # 100)%Q.
Proof.
  unfold nearest_cached. case_decide as Hcount.
  - destruct (similarity_search_with_score _ _) as [|[pc score] rest].
    + split; [done|]. by intros (_ & ? & ? & ? & _).
    + destruct (Qlt_le_dec score (5 # 100)) as [Hlt|Hle].
      * split.
        -- intros [= ->]. eauto 6.
        -- intros (_ & ? & ? & [= -> -> ->] & _). done.
      * split; [done|]. intros (_ & ? & ? & [= -> -> ->] & Hlt).
        by apply Qlt_not_le in Hlt.
  - split; [done|]. by intros [? _].
Qed.
End qa_cache.

(** C7 (as amended). The two answering operations memoize differently.
    [get_task_context] looks the question up as an exact key only: on a hit
    the stored answer is returned, the model is not called and nothing
    changes; on a miss the model is called once and the pair is added to the
    answer map and to the question index, in memory and on disk, before the
    answer is returned. The loop body of [run_qa] looks at the nearest
    neighbour only: when the index is not empty and the nearest question is
    closer than 0.05, that question and its cached answer are used, the model
    is not called and the cache is unchanged; otherwise the model is called
    once and, the question not being a key of the cache, the pair is added to
    both the map and the index. *)
Theorem C7_memoized_answers
    (run_answer_questions : nat → string → string)
    (similarity_search_with_score : list string → string → list (string * Q)) :
  (∀ (self : base_curriculum.t) (disk : base_curriculum.checkpoint)
     (task answer : string),
     base_curriculum.qa_cache self !! base_curriculum.task_question task
     = Some answer →
     base_curriculum.get_task_context run_answer_questions self disk task
     = (self, disk, base_curriculum.render_context answer))
  ∧ (∀ (self : base_curriculum.t) (disk : base_curriculum.checkpoint)
       (task : string),
       let question := base_curriculum.task_question task in
       let answer :=
         run_answer_questions (length (base_curriculum.qa_calls self)) question in
       base_curriculum.qa_cache self !! question = None →
       ∃ self' disk',
         base_curriculum.get_task_context run_answer_questions self disk task
         = (self', disk', base_curriculum.render_context answer)
         ∧ base_curriculum.qa_calls self'
           = base_curriculum.qa_calls self ++ [question]
         ∧ base_curriculum.qa_cache self'
           = <[question := answer]> (base_curriculum.qa_cache self)
         ∧ base_curriculum.qa_cache_questions_vectordb self'
           = base_curriculum.qa_cache_questions_vectordb self ++ [question]
         ∧ base_curriculum.qa_cache_json disk' = base_curriculum.qa_cache self'
         ∧ base_curriculum.vectordb_dir disk'
           = base_curriculum.qa_cache_questions_vectordb self')
  ∧ (∀ (st : voyager_curriculum.qa_loop)
       (question question_cached answer_cached : string),
       voyager_curriculum.nearest_cached similarity_search_with_score
         (voyager_curriculum.self st) question = Some question_cached →
       base_curriculum.qa_cache (voyager_curriculum.self st) !! question_cached
       = Some answer_cached →
       voyager_curriculum.run_qa_body run_answer_questions
         similarity_search_with_score st question
       = (voyager_curriculum.mk_qa_loop
            (voyager_curriculum.self st) (voyager_curriculum.disk st)
            (voyager_curriculum.questions st ++ [question_cached])
            (voyager_curriculum.answers st ++ [answer_cached]), None))
  ∧ (∀ (st : voyager_curriculum.qa_loop) (question : string),
       let b := voyager_curriculum.self st in
       let answer :=
         run_answer_questions (length (base_curriculum.qa_calls b)) question in
       voyager_curriculum.nearest_cached similarity_search_with_score b question
       = None →
       base_curriculum.qa_cache b !! question = None →
       ∃ st',
         voyager_curriculum.run_qa_body run_answer_questions
           similarity_search_with_score st question
         = (st', None)
         ∧ base_curriculum.qa_calls (voyager_curriculum.self st')
           = base_curriculum.qa_calls b ++ [question]
         ∧ base_curriculum.qa_cache (voyager_curriculum.self st')
           = <[question := answer]> (base_curriculum.qa_cache b)
         ∧ base_curriculum.qa_cache_questions_vectordb (voyager_curriculum.self st')
           = base_curriculum.qa_cache_questions_vectordb b ++ [question]
         ∧ base_curriculum.qa_cache_json (voyager_curriculum.disk st')
           = base_curriculum.qa_cache (voyager_curriculum.self st')
         ∧ base_curriculum.vectordb_dir (voyager_curriculum.disk st')
           = base_curriculum.qa_cache_questions_vectordb (voyager_curriculum.self st')
         ∧ voyager_curriculum.questions st'
           = voyager_curriculum.questions st ++ [question]
         ∧ voyager_curriculum.answers st'
           = voyager_curriculum.answers st ++ [answer]).
Proof.
  split_and!.
  - intros self disk task answer Hhit.
    unfold base_curriculum.get_task_context. by rewrite Hhit.
  - intros self disk task question answer Hmiss.
    unfold base_curriculum.get_task_context. fold question. rewrite Hmiss.
    simpl. eexists _, _. split_and!; reflexivity.
  - intros st question qc ac Hnear Hqc.
    unfold voyager_curriculum.run_qa_body. by rewrite Hnear, Hqc.
  - intros st question b answer Hnear Hmiss.
    unfold voyager_curriculum.run_qa_body. fold b. rewrite Hnear. simpl.
    rewrite decide_False by (rewrite Hmiss; by intros [? ?]).
    eexists. split_and!; reflexivity.
Qed.

Lemma C7_memoized_answers_witness :
  base_curriculum.get_task_context examples.numbered_answers
    (base_curriculum.mk [] []
       {[ base_curriculum.task_question "Reverse a list" := "Use slicing." ]}
       [base_curriculum.task_question "Reverse a list"] [])
    examples.curriculum_disk_q "Reverse a list"
  = (base_curriculum.mk [] []
       {[ base_curriculum.task_question "Reverse a list" := "Use slicing." ]}
       [base_curriculum.task_question "Reverse a list"] [],
     examples.curriculum_disk_q,
     base_curriculum.render_context "Use slicing.").
Proof.
  apply (proj1 (C7_memoized_answers examples.numbered_answers
                  examples.always_near)).
  apply lookup_singleton_eq.
Defined.

(** C7 as stated fails for [get_task_context]: a question that is not a
    key of the cache, whose nearest indexed question is at distance 0 and
    has a cached answer, is still sent to the model; the model's answer is
    returned and the cache grows. *)
Lemma C7_counterexample :
  let question := base_curriculum.task_question "Sort a list" in
  base_curriculum.qa_cache examples.curriculum_q !! question = None
  ∧ voyager_curriculum.nearest_cached examples.always_near
      examples.curriculum_q question = Some examples.cached_q
  ∧ base_curriculum.qa_cache examples.curriculum_q !! examples.cached_q
    = Some "Use slicing."
  ∧ ∃ self' disk',
      base_curriculum.get_task_context examples.numbered_answers
        examples.curriculum_q examples.curriculum_disk_q "Sort a list"
      = (self', disk', base_curriculum.render_context "answer 0")
      ∧ base_curriculum.qa_calls self' = [question]
      ∧ base_curriculum.qa_cache self' !! question = Some "answer 0".
Proof.
  split_and!; [by vm_compute..|].
  eexists _, _. split_and!; [reflexivity| |]; by vm_compute.
Qed.

(** The other operation has no exact-key lookup: in the body of [run_qa], a
    question that is a key of the cache but is not reported as a near
    neighbour is sent to the model and then stopped by the [assert]. *)
Example run_qa_asserts_on_cached_key :
  let run :=
    voyager_curriculum.run_qa_body examples.numbered_answers examples.never_near
      (voyager_curriculum.mk_qa_loop examples.curriculum_q
         examples.curriculum_disk_q [] [])
      examples.cached_q in
  snd run = Some (AssertionError EmptyString)
  ∧ base_curriculum.qa_calls (voyager_curriculum.self (fst run))
    = [examples.cached_q]
  ∧ voyager_curriculum.answers (fst run) = [].
Proof. by vm_compute. Qed.

(** ** The analyzer ([extract_from_ast]) *)

Section walk.
Import code_parse.

Lemma size_list_app (l1 l2 : list ast) :
  size_list (l1 ++ l2) = size_list l1 + size_list l2.
Proof.
  unfold size_list. induction l1 as [|n l1 IH]; simpl; [done|].
  rewrite IH. lia.
Qed.

Lemma size_children (n : ast) : size n = S (size_list (iter_child_nodes n)).
Proof. by destruct n. Qed.

Lemma in_tree_left (n c x : ast) :
  c ∈ iter_child_nodes n → spec.in_tree c x → spec.in_tree n x.
Proof.
  intros Hc Hx. induction Hx as [|y z _ IH Hz].
  - by apply (spec.in_tree_child n n c); [constructor|].
  - by apply (spec.in_tree_child n y z).
Qed.

Lemma in_tree_inv (n x : ast) :
  spec.in_tree n x →
  x = n ∨ ∃ c, c ∈ iter_child_nodes n ∧ spec.in_tree c x.
Proof.
  induction 1 as [|y z _ [->|(c & Hc & Hy)] Hz].
  - by left.
  - right. exists z. split; [done|constructor].
  - right. exists c. split; [done|]. by apply (spec.in_tree_child c y z).
Qed.

Lemma in_tree_trans (a b c : ast) :
  spec.in_tree a b → spec.in_tree b c → spec.in_tree a c.
Proof.
  intros Hab Hbc. induction Hbc as [|y z _ IH Hz]; [done|].
  by apply (spec.in_tree_child a y z).
Qed.

(** With fuel for every node still to come, the breadth-first scan yields
    exactly the nodes of the trees in its queue. *)
Lemma walk_queue_spec (fuel : nat) :
  ∀ todo, size_list todo ≤ fuel →
  ∀ x, x ∈ walk_queue fuel todo ↔ ∃ n, n ∈ todo ∧ spec.in_tree n x.
Proof.
  induction fuel as [|k IH]; intros todo Hfuel x.
  - destruct todo as [|n rest].
    + simpl. split; [by inversion 1|]. intros (n & Hn & _). by inversion Hn.
    + unfold size_list in Hfuel. simpl in Hfuel. destruct n. simpl in Hfuel. lia.
  - destruct todo as [|n rest].
    + simpl. split; [by inversion 1|]. intros (n & Hn & _). by inversion Hn.
    + simpl. rewrite elem_of_cons, IH.
      * split.
        -- intros [->|(m & [Hm|Hm]%elem_of_app & Hx)].
           ++ exists n. split; [by left|constructor].
           ++ exists m. split; [by right|done].
           ++ exists n. split; [by left|]. by apply (in_tree_left n m).
        -- intros (m & [->|Hm]%elem_of_cons & Hx).
           ++ destruct (in_tree_inv _ _ Hx) as [->|(c & Hc & Hcx)]; [by left|].
              right. exists c. split; [|done]. apply elem_of_app. by right.
           ++ right. exists m. split; [|done]. apply elem_of_app. by left.
      * rewrite size_list_app.
        change (size_list (n :: rest)) with (size n + size_list rest) in Hfuel.
        rewrite size_children in Hfuel. lia.
Qed.

Lemma walk_spec (t x : ast) : x ∈ walk t ↔ spec.in_tree t x.
Proof.
  unfold walk. rewrite walk_queue_spec.
  - split.
    + by intros (n & ->%list_elem_of_singleton & Hx).
    + intros Hx. exists t. split; [by apply list_elem_of_singleton|done].
  - unfold size_list. simpl. lia.
Qed.
End walk.

Section analyzer.
Import code_parse.
Variable builtin_names : gset string.

Lemma fold_add_call (l : list ast) (d : gset string) (id : string) :
  id ∈ foldl (add_call builtin_names) d l
  ↔ id ∈ d
    ∨ ((id ∉ builtin_names) ∧ ∃ inner, inner ∈ l ∧ call_func_id inner = Some id).
Proof.
  revert d. induction l as [|n l IH]; intros d; simpl.
  - split; [by left|]. intros [?|(_ & ? & Hin & _)]; [done|by inversion Hin].
  - rewrite IH. unfold add_call.
    destruct (call_func_id n) as [id'|] eqn:Hn.
    + case_decide as Hb.
      * split.
        -- intros [?|(? & inner & ? & ?)]; [by left|].
           right. split; [done|]. exists inner. split; [by right|done].
        -- intros [?|(? & inner & [->|?]%elem_of_cons & Hc)]; [by left| |].
           ++ rewrite Hn in Hc. by simplify_eq.
           ++ right. eauto.
      * rewrite elem_of_union, elem_of_singleton. split.
        -- intros [[->|?]|(? & inner & ? & ?)].
           ++ right. split; [done|]. exists n. split; [by left|done].
           ++ by left.
           ++ right. split; [done|]. exists inner. split; [by right|done].
        -- intros [?|(? & inner & [->|?]%elem_of_cons & Hc)].
           ++ left. by right.
           ++ rewrite Hn in Hc. simplify_eq. left. by left.
           ++ right. eauto.
    + split.
      * intros [?|(? & inner & ? & ?)]; [by left|].
        right. split; [done|]. exists inner. split; [by right|done].
      * intros [?|(? & inner & [->|?]%elem_of_cons & Hc)]; [by left| |].
        -- by rewrite Hn in Hc.
        -- right. eauto.
Qed.

(** What the scan has collected after a list of nodes. *)
Lemma scan_functions (l : list ast) (acc : extraction) (name : string) :
  name ∈ map fn_name (functions (foldl (scan_node builtin_names) acc l))
  ↔ name ∈ map fn_name (functions acc)
    ∨ ∃ node, node ∈ l ∧ cls_of node = FunctionDef name.
Proof.
  revert acc. induction l as [|n l IH]; intros acc; simpl.
  - split; [by left|]. intros [?|(? & Hin & _)]; [done|by inversion Hin].
  - rewrite IH. unfold scan_node, extract_info_from_imports.
    destruct (cls_of n) eqn:Hn; simpl;
      try (split;
           [ intros [?|(node & ? & ?)]; [by left|right; exists node; split; [by right|done]]
           | intros [?|(node & [->|?]%elem_of_cons & Hc)];
             [by left|congruence|right; eauto] ]).
    rewrite map_app, elem_of_app. simpl. rewrite list_elem_of_singleton. split.
    + intros [[? | ->]|(node & ? & ?)]; [by left| |].
      * right. exists n. split; [by left|done].
      * right. exists node. split; [by right|done].
    + intros [?|(node & [->|?]%elem_of_cons & Hc)].
      * left. by left.
      * left. right. congruence.
      * right. eauto.
Qed.

Lemma scan_imported (l : list ast) (acc : extraction) (x : string) :
  x ∈ imported_fns (foldl (scan_node builtin_names) acc l)
  ↔ x ∈ imported_fns acc
    ∨ ∃ node module names a,
        node ∈ l ∧ cls_of node = ImportFrom module names
        ∧ a ∈ names ∧ alias_name a = x.
Proof.
  revert acc. induction l as [|n l IH]; intros acc; simpl.
  - split; [by left|]. intros [?|(? & ? & ? & ? & Hin & _)]; [done|by inversion Hin].
  - rewrite IH. unfold scan_node, extract_info_from_imports.
    destruct (cls_of n) eqn:Hn; simpl;
      try (split;
           [ intros [?|(node & ? & ? & ? & ? & ?)];
             [by left|right; exists node; eexists _, _, _; split; [by right|done]]
           | intros [?|(node & ? & ? & ? & [->|?]%elem_of_cons & Hc & ?)];
             [by left|congruence|right; eauto 8] ]).
    rewrite elem_of_app. split.
    + intros [[?|Hx]|(node & ? & ? & ? & ? & ?)]; [by left| |].
      * apply list_elem_of_In, in_map_iff in Hx as (a & <- & Ha%list_elem_of_In).
        right. exists n. eexists _, _, a. split_and!; [by left|done..].
      * right. exists node. eexists _, _, _. split; [by right|done].
    + intros [?|(node & m & ns & a & [->|?]%elem_of_cons & Hc & Ha & <-)].
      * left. by left.
      * left. right. rewrite Hn in Hc. simplify_eq.
        apply list_elem_of_In, in_map_iff. exists a.
        split; [done|by apply list_elem_of_In].
      * right. eauto 8.
Qed.

Lemma scan_dependencies (l : list ast) (acc : extraction) (id : string) :
  id ∈ dependencies (foldl (scan_node builtin_names) acc l)
  ↔ id ∈ dependencies acc
    ∨ ((id ∉ builtin_names)
       ∧ ∃ node name inner,
           node ∈ l ∧ cls_of node = FunctionDef name
           ∧ inner ∈ walk node ∧ call_func_id inner = Some id).
Proof.
  revert acc. induction l as [|n l IH]; intros acc; simpl.
  - split; [by left|]. intros [?|(_ & ? & ? & ? & Hin & _)]; [done|by inversion Hin].
  - rewrite IH. unfold scan_node, extract_info_from_imports.
    destruct (cls_of n) eqn:Hn; simpl;
      try (split;
           [ intros [?|(? & node & ? & ? & ? & ?)];
             [by left|right; split; [done|]; exists node; eexists _, _; split; [by right|done]]
           | intros [?|(? & node & ? & ? & [->|?]%elem_of_cons & Hc & ?)];
             [by left|congruence|right; eauto 8] ]).
    + rewrite fold_add_call. split.
      * intros [[?|(? & inner & ? & ?)]|(? & node & ? & ? & ? & ?)].
        -- by left.
        -- right. split; [done|]. exists n. eexists _, inner.
           split_and!; [by left|done..].
        -- right. split; [done|]. exists node. eexists _, _. split; [by right|done].
      * intros [?|(? & node & nm & inner & [->|?]%elem_of_cons & Hc & Hi & Hid)].
        -- left. by left.
        -- left. right. eauto.
        -- right. eauto 8.
Qed.

Lemma fold_discard (l : list string) (d : gset string) (id : string) :
  id ∈ foldl discard d l ↔ id ∈ d ∧ id ∉ l.
Proof.
  revert d. induction l as [|n l IH]; intros d; simpl.
  - split; [|by intros [? _]]. intros ?. split; [done|apply not_elem_of_nil].
  - rewrite IH. unfold discard.
    rewrite elem_of_difference, elem_of_singleton, not_elem_of_cons. tauto.
Qed.

(** The dependency set, exactly. *)
Lemma extract_from_tree_dependencies (t : ast) (id : string) :
  id ∈ dependencies (extract_from_tree builtin_names t)
  ↔ spec.calls t id ∧ (id ∉ builtin_names)
    ∧ ¬ spec.defines t id ∧ ¬ spec.from_imports t id.
Proof.
  unfold extract_from_tree. simpl.
  rewrite fold_discard, not_elem_of_app, scan_dependencies, scan_functions,
    scan_imported. simpl.
  split.
  - intros ([Hin|(Hb & node & name & inner & Hn & Hc & Hi & Hid)] & Hf & Himp);
      [by apply not_elem_of_empty in Hin|].
    split_and!.
    + exists node, name, inner. by rewrite <- !walk_spec.
    + done.
    + intros (n & Hn'%walk_spec & Hc'). apply Hf. right. eauto.
    + intros (n & m & ns & a & Hn'%walk_spec & Hc' & Ha & Hx).
      apply Himp. right. eauto 8.
  - intros ((node & name & inner & Hn%walk_spec & Hc & Hi%walk_spec & Hid)
            & Hb & Hf & Himp).
    split_and!.
    + right. split; [done|]. eauto 8.
    + intros [Hin|(n & Hn'%walk_spec & Hc')]; [by inversion Hin|].
      apply Hf. by exists n.
    + intros [Hin|(n & m & ns & a & Hn'%walk_spec & Hc' & Ha & Hx)];
        [by inversion Hin|].
      apply Himp. by exists n, m, ns, a.
Qed.
End analyzer.
(** C8 (as amended). For every text that parses, the analyzer returns.
    Every member of its dependency set is a plain identifier called inside
    some [def] of the text, and is not built-in, not the name of a function
    defined with [def] anywhere in the text (recursive calls and calls of
    helper functions are not flagged), and not a name listed by a
    [from ... import] statement without [as]. Conversely, a plain
    identifier called inside some [def] is in the set when it is not
    built-in, not the name of a [def] function, and not named by any
    [from ... import] statement, before or after an [as]; also when it is
    imported by a plain [import] or defined with [async def]. What becomes
    of the two names of a [from ... import ... as ...] is left open. *)
Theorem C8_dependency_set
    (builtin_names : gset string)
    (ast_parse : string → option code_parse.ast)
    (code : string) (t : code_parse.ast) :
  ast_parse code = Some t →
  ∃ ex,
    code_parse.extract_from_ast builtin_names ast_parse code = inr ex
    ∧ (∀ id, id ∈ code_parse.dependencies ex →
             spec.calls t id ∧ (id ∉ builtin_names)
             ∧ ¬ spec.defines t id ∧ ¬ spec.from_imports_plainly t id)
    ∧ (∀ id, spec.calls t id → id ∉ builtin_names →
             ¬ spec.defines t id →
             ¬ spec.from_imports t id → ¬ spec.imports_as t id →
             id ∈ code_parse.dependencies ex).
Proof.
  intros Hparse. unfold code_parse.extract_from_ast. rewrite Hparse.
  eexists. split; [reflexivity|]. split.
  - intros id (Hcalls & Hbuiltin & Hdef & Himp)%extract_from_tree_dependencies.
    split_and!; [done..|].
    intros (n & module & names & a & Hn & Hcls & Ha & Hname & _).
    apply Himp. by exists n, module, names, a.
  - intros id Hcalls Hbuiltin Hdef Himp _.
    by apply extract_from_tree_dependencies.
Qed.

Lemma C8_dependency_set_witness :
  ∃ ex,
    code_parse.extract_from_ast examples.some_builtins
      (λ _, Some examples.imports_tree) "import foo" = inr ex
    ∧ (∀ id, id ∈ code_parse.dependencies ex →
             spec.calls examples.imports_tree id
             ∧ (id ∉ examples.some_builtins)
             ∧ ¬ spec.defines examples.imports_tree id
             ∧ ¬ spec.from_imports_plainly examples.imports_tree id)
    ∧ (∀ id, spec.calls examples.imports_tree id →
             id ∉ examples.some_builtins →
             ¬ spec.defines examples.imports_tree id →
             ¬ spec.from_imports examples.imports_tree id →
             ¬ spec.imports_as examples.imports_tree id →
             id ∈ code_parse.dependencies ex).
Proof.
  exact (C8_dependency_set examples.some_builtins
           (λ _, Some examples.imports_tree) "import foo"
           examples.imports_tree eq_refl).
Defined.

(** C8 as stated fails on the text of [examples.imports_tree]: the
    dependency set holds [foo], which the text imports with [import foo];
    it holds [s], the name under which the text imports [sqrt]; and it holds
    [g], a function the text defines with [async def]. It does leave out the
    built-in [len] and the [def] function [f]. *)
Lemma C8_counterexample :
  code_parse.dependencies
    (code_parse.extract_from_tree examples.some_builtins examples.imports_tree)
  = {[ "foo"; "s"; "g" ]}
  ∧ spec.plain_imports examples.imports_tree "foo"
  ∧ spec.imports_as examples.imports_tree "s"
  ∧ spec.defines_async examples.imports_tree "g".
Proof.
  split_and!.
  - by vm_compute.
  - exists (code_parse.Node
              (code_parse.Import [code_parse.mk_alias "foo" None]) []).
    eexists _, _.
    split_and!;
      [ eapply spec.in_tree_child; [constructor|]; apply list_elem_of_here
      | reflexivity | apply list_elem_of_here | reflexivity ].
  - exists (code_parse.Node
              (code_parse.ImportFrom (Some "math")
                 [code_parse.mk_alias "sqrt" (Some "s")]) []).
    eexists _, _, _.
    split_and!;
      [ eapply spec.in_tree_child; [constructor|];
        apply list_elem_of_further, list_elem_of_here
      | reflexivity | apply list_elem_of_here | reflexivity ].
  - exists (code_parse.Node (code_parse.AsyncFunctionDef "g") []).
    split; [|reflexivity].
    eapply spec.in_tree_child; [constructor|]. simpl.
    do 2 apply list_elem_of_further. apply list_elem_of_here.
Qed.

(** ** The rollout controller *)

Section rollout.
Import voyager_agent.
Variable ast_parse : string → option code_parse.ast.
Variable run_answer_questions : nat → string → string.
Variable retrieve_code : base_vector_mem.t → string → py_exception + list entry.t.
Variable gen_code :
  nat → list entry.t → string → string → critic.critic_out → string →
  py_exception + parsed_result.value.
Variable task_env_step :
  string → bool → py_exception + (string * bool * option string).
Variable check_success :
  string → bool → string → string → py_exception + critic.critic_out.
Variable gen_code_desc : parsed_result.t → string → string.

Ltac close_attempt Hl Hd :=
  simpl; split; [done | first [exact Hl | apply Hd | by intros ? [=]]].

(** One pass through the loop body never hangs in [append_dependencies],
    and leaves a drained candidate in the locals. *)
Lemma attempt_spec (self : t) (upt : bool) (i : nat) (l : locals) :
  spec.drained l →
  snd (attempt retrieve_code gen_code task_env_step check_success self upt i l) ≠ Diverge ∧ spec.drained (fst (attempt retrieve_code gen_code task_env_step check_success self upt i l)).
Proof.
  intros Hl. unfold voyager_agent.attempt.
  destruct (retrieve_code _ _) as [e|skills]; [close_attempt Hl Hl|].
  destruct (gen_code _ _ _ _ _ _) as [e|[|[pr|]]];
    [close_attempt Hl Hl|close_attempt Hl Hl| |close_attempt Hl Hl].
  destruct (append_dependencies_spec (get_fn_maps self) pr)
    as (st & _ & _ & ->). simpl.
  assert (Hd : ∀ o r f c cr,
             spec.drained
               (mk_locals o r f
                  (parsed_result.Dict
                     (Some (parsed_result.set_full_code
                              (join (nl +:+ nl)
                                 (rev (code_parse.dependent_code st)
                                  ++ [parsed_result.program_code pr]))
                              (parsed_result.set_dependencies [] pr)))) c cr)).
  { intros o r f c cr pr' [= <-]. simpl. eauto. }
  destruct (eval_later self && negb (train self) && negb upt);
    [close_attempt Hl Hd|].
  destruct (task_env_step _ _) as [e|[[obs' reward'] info']];
    [close_attempt Hl Hd|].
  destruct (check_success _ _ _ _) as [e|critic_out']; [close_attempt Hl Hd|].
  destruct (critic.success critic_out'); close_attempt Hl Hd.
Qed.

Lemma attempts_spec (self : t) (upt : bool) (n : nat) :
  ∀ i l, spec.drained l →
         snd (attempts retrieve_code gen_code task_env_step check_success self upt n i l) ≠ Diverge
         ∧ spec.drained (fst (attempts retrieve_code gen_code task_env_step check_success self upt n i l)).
Proof.
  induction n as [|n IH]; intros i l Hl; [done|]. simpl.
  destruct (attempt_spec self upt i l Hl) as [Hnd Hdr].
  destruct (attempt retrieve_code gen_code task_env_step check_success self upt i l) as [l' []]; simpl in *; try done.
  by apply IH.
Qed.

Lemma initial_locals_drained : spec.drained initial_locals.
Proof. by intros pr [=]. Qed.

(** [rollout] in terms of its loop: the attempts never hang, and what
    follows them depends on what the locals hold at the end. With [None],
    [log_rollout] raises and nothing is written after the error line, if
    any; with a dictionary, the record is written and the pair returned. *)
Lemma rollout_spec (self : t) (ft : full_task) (upt : bool) :
  let self0 := reset run_answer_questions self ft in
  ∃ l stopped,
    attempts retrieve_code gen_code task_env_step check_success self0 upt (max_task_attempts self0) 0 initial_locals = (l, stopped)
    ∧ stopped ≠ Diverge
    ∧ spec.drained l
    ∧ let dir :=
        match stopped with
        | Raise e =>
            log.handle_rollout_error e (task_id self0) (result_dir self0)
        | _ => result_dir self0
        end in
      rollout run_answer_questions retrieve_code gen_code task_env_step
              check_success self ft upt
      = match parsed_result l with
        | parsed_result.PyNone =>
            Some (with_result_dir self0 dir,
                  inl (Exception
                         "AttributeError: 'NoneType' object has no attribute 'get'"))
        | parsed_result.Dict d =>
            Some (with_result_dir self0
                    (log.mk_result_dir
                       (<[(train self0, task_id self0)
                          := spec.record_of (task_id self0) l d]>
                          (log.outputs dir))
                       (log.error_txt dir)),
                  inr (critic.success (critic_out l), parsed_result.Dict d))
        end.
Proof.
  intros self0.
  destruct (attempts_spec self0 upt (max_task_attempts self0) 0 initial_locals
              initial_locals_drained) as [Hnd Hdr].
  unfold rollout. fold self0.
  destruct (attempts retrieve_code gen_code task_env_step check_success self0 upt _ 0 initial_locals) as [l stopped].
  exists l, stopped. simpl in *. split_and!; [done..|].
  destruct stopped; try done; by destruct (parsed_result l).
Qed.

Lemma reset_fields (self : t) (ft : full_task) :
  let self0 := reset run_answer_questions self ft in
  task self0 = ft_task ft ∧ task_id self0 = ft_task_id ft
  ∧ train self0 = train self ∧ result_dir self0 = result_dir self
  ∧ procedural_mem self0 = procedural_mem self
  ∧ skill_disk self0 = skill_disk self.
Proof.
  unfold reset.
  by destruct (base_curriculum.get_task_context _ _ _ _) as [[b d] ctx].
Qed.
End rollout.
(** C9. The failing input: the generation has no candidate on the first
    attempt and returns [None], and the model call of the second attempt
    raises. The exception is caught and [error.txt] gets its line, with the
    task id; but [log_rollout], which runs outside the [try], then calls
    [parsed_result.get] on [None]: [rollout] ends with that
    [AttributeError] instead of returning, and the record of the task is
    not written. *)
Theorem C9_rollout_raises_after_none :
  let run :=
    voyager_agent.rollout examples.numbered_answers examples.retrieve_none
      examples.gen_none_then_raise examples.step_fails
      examples.critic_of_reward examples.agent0 examples.task7 false in
  snd <$> run
  = Some (inl (Exception
                 "AttributeError: 'NoneType' object has no attribute 'get'"))
  ∧ (λ r, log.error_txt (voyager_agent.result_dir (fst r))) <$> run
    = Some [("task-7", Exception "model unavailable")]
  ∧ (λ r, log.outputs (voyager_agent.result_dir (fst r)) !! (true, "task-7"))
      <$> run
    = Some None.
Proof. split_and!; vm_compute; reflexivity. Qed.

(** The same run with a first candidate instead of [None]: the first
    candidate fails its tests, the model call of the second attempt raises;
    the caller gets [False] and the first candidate, drained and with its
    full code, and [error.txt] names the task and the exception. *)
Example rollout_after_exception :
  let run :=
    voyager_agent.rollout examples.numbered_answers examples.retrieve_none
      examples.gen_then_raise examples.step_fails examples.critic_of_reward
      examples.agent0 examples.task7 false in
  snd <$> run
  = Some (inr (false,
               parsed_result.Dict
                 (Some (parsed_result.mk "def c(): return b()" "c" [] "raw" true
                          (Some (join (nl +:+ nl)
                                   ["def a(): return 1"; "def b(): return a()";
                                    "def c(): return b()"]))
                          None))))
  ∧ (λ r, log.error_txt (voyager_agent.result_dir (fst r))) <$> run
    = Some [("task-7", Exception "model unavailable")].
Proof. split; vm_compute; reflexivity. Qed.

(** ** Archiving a skill *)

Section archive.
Import base_vector_mem.
Variable ast_parse : string → option code_parse.ast.

Lemma name_loop_exit_unused (m : gmap string entry.t) (prevent : bool)
    (code old_name : string) (k : nat) :
  ∀ name ver name' ver',
    name_loop k m prevent code old_name name ver = Some (Fresh name' ver') →
    m !! name' = None.
Proof.
  induction k as [|k IH]; intros name ver name' ver'; simpl;
    destruct (m !! name) as [stored|] eqn:Hn;
    try destruct (prevent && bool_decide _); try done;
    try (by intros [= <- <-]).
  all: try apply IH.
Qed.

Lemma name_loop_no_skip (m : gmap string entry.t) (code old_name : string)
    (k : nat) :
  ∀ name ver, name_loop k m false code old_name name ver ≠ Some Skip.
Proof.
  induction k as [|k IH]; intros name ver; simpl;
    destruct (m !! name); try done.
  all: try apply IH.
Qed.

(** Without the duplicate test, [add_code] returns and has put one new
    entry, with the dependencies, task and description it was given, under
    a name that was not a key before. *)
Lemma add_code_stores (self : t) (disk : checkpoint) (pd : processed_data)
    (description old_name : string) :
  derive_name ast_parse pd = inr old_name →
  ∃ name code' self' disk' r,
    add_code ast_parse self disk pd description false = Some (self', disk', r)
    ∧ fn_str_map self !! name = None
    ∧ fn_str_map self'
      = <[name := entry.mk code' (dependencies pd) (task pd) description]>
          (fn_str_map self).
Proof.
  intros Hname. unfold add_code. rewrite Hname.
  destruct (name_loop_total (fn_str_map self) old_name false (code pd))
    as [[|name ver] Hloop]; rewrite Hloop.
  - by apply name_loop_no_skip in Hloop.
  - apply name_loop_exit_unused in Hloop.
    case_decide; eexists name, _, _, _, _; split_and!; done.
Qed.

Lemma add_skill_archives (self : t) (disk : checkpoint) (pr : parsed_result.t)
    (skill_description task : string) :
  ∃ name code' self' disk' r,
    voyager_procedural_mem.add_skill ast_parse self disk pr skill_description task
    = Some (self', disk', parsed_result.set_task task pr, r)
    ∧ fn_str_map self !! name = None
    ∧ fn_str_map self'
      = <[name := entry.mk code' (Some (parsed_result.dependencies pr)) task
                           skill_description]>
          (fn_str_map self).
Proof.
  unfold voyager_procedural_mem.add_skill.
  edestruct (add_code_stores self disk) as (name & code' & self' & disk' & r & -> & Hnone & Hmap);
    [reflexivity|].
  exists name, code', self', disk'. destruct r; eexists; split_and!; done.
Qed.
End archive.

(** C10. [append_dependencies] returns the dictionary it was given with its
    dependency list emptied and its full code set. Hence a candidate that
    [rollout] returns has an empty dependency list; when [train_step]
    archives it after a successful rollout, the new entry of the skill
    library records the empty list; and a later resolution that visits a
    skill recorded with the empty list enqueues nothing for it. *)
Theorem C10_dependencies_drained
    (ast_parse : string → option code_parse.ast)
    (run_answer_questions : nat → string → string)
    (retrieve_code : base_vector_mem.t → string → py_exception + list entry.t)
    (gen_code :
       nat → list entry.t → string → string → critic.critic_out → string →
       py_exception + parsed_result.value)
    (task_env_step :
       string → bool → py_exception + (string * bool * option string))
    (check_success :
       string → bool → string → string → py_exception + critic.critic_out)
    (gen_code_desc : parsed_result.t → string → string) :
  (∀ (tables : list (gmap string entry.t)) (pr : parsed_result.t),
     ∃ full,
       code_parse.append_dependencies pr tables
       = Some (parsed_result.set_full_code full
                 (parsed_result.set_dependencies [] pr), full))
  ∧ (∀ (self self' : voyager_agent.t) (ft : voyager_agent.full_task)
       (use_public_tests succ : bool) (pr : parsed_result.t),
       voyager_agent.rollout run_answer_questions retrieve_code gen_code
         task_env_step check_success self ft use_public_tests
       = Some (self', inr (succ, parsed_result.Dict (Some pr))) →
       parsed_result.dependencies pr = []
       ∧ is_Some (parsed_result.full_code pr))
  ∧ (∀ (self self1 : voyager_agent.t) (ft : voyager_agent.full_task)
       (pr : parsed_result.t),
       voyager_agent.rollout run_answer_questions retrieve_code gen_code
         task_env_step check_success self ft false
       = Some (self1, inr (true, parsed_result.Dict (Some pr))) →
       ∃ self' r name e,
         voyager_agent.train_step ast_parse run_answer_questions retrieve_code
           gen_code task_env_step check_success gen_code_desc self ft
         = Some (self', r)
         ∧ base_vector_mem.fn_str_map (voyager_agent.procedural_mem self) !! name
           = None
         ∧ base_vector_mem.fn_str_map (voyager_agent.procedural_mem self')
           = <[name := e]>
               (base_vector_mem.fn_str_map (voyager_agent.procedural_mem self))
         ∧ entry.dependencies e = Some []
         ∧ entry.task e = voyager_agent.ft_task ft)
  ∧ (∀ (tables : list (gmap string entry.t)) (st : code_parse.loop_state)
       (n : string) (rest : list string) (e : entry.t),
       n ∉ code_parse.visited st →
       code_parse.lookup_tables tables n = Some e →
       entry.dependencies e = Some [] →
       code_parse.queue (code_parse.loop_body tables n rest st) = rest).
Proof.
  split_and!.
  - intros tables pr.
    destruct (append_dependencies_spec tables pr) as (st & _ & _ & ->). eauto.
  - intros self self' ft upt succ pr Hroll.
    destruct (rollout_spec run_answer_questions retrieve_code gen_code
                task_env_step check_success self ft upt)
      as (l & stopped & _ & _ & Hdr & Heq).
    cbv zeta in Heq. rewrite Heq in Hroll.
    destruct (voyager_agent.parsed_result l) as [|d] eqn:Hl; [done|].
    injection Hroll as _ _ Hpr. apply Hdr. by rewrite Hl, Hpr.
  - intros self self1 ft pr Hroll.
    destruct (rollout_spec run_answer_questions retrieve_code gen_code
                task_env_step check_success self ft false)
      as (l & stopped & _ & _ & Hdr & Heq).
    cbv zeta in Heq.
    destruct (voyager_agent.parsed_result l) as [|d] eqn:Hl;
      rewrite Heq in Hroll; [done|].
    injection Hroll as Hself Hsucc Hpr.
    destruct (Hdr pr) as [Hdeps _]; [by rewrite Hl, Hpr|].
    destruct (reset_fields run_answer_questions self ft)
      as (Htask & _ & _ & _ & Hmem & Hdisk).
    unfold voyager_agent.train_step. rewrite Heq, Hsucc, Hpr. simpl.
    rewrite Htask, Hmem, Hdisk.
    destruct (add_skill_archives ast_parse (voyager_agent.procedural_mem self)
                (voyager_agent.skill_disk self) pr
                (gen_code_desc pr (voyager_agent.ft_task ft))
                (voyager_agent.ft_task ft))
      as (name & code' & mem & disk & r & -> & Hnone & Hmap).
    rewrite Hdeps in Hmap.
    destruct r as [e|[]].
    + eexists _, _, name, _. split_and!; [reflexivity|done|exact Hmap|done..].
    + unfold voyager_curriculum.update_exploration_progress,
        base_curriculum.update_exploration_progress.
      rewrite clean_up_tasks_spec. simpl.
      eexists _, _, name, _. split_and!; [reflexivity|done|exact Hmap|done..].
  - intros tables st n rest e Hv He Hd.
    rewrite (loop_body_visit tables st n rest e) by done.
    simpl. rewrite Hd. simpl. apply app_nil_r.
Qed.

(** A run in which the first candidate is accepted. *)
Lemma rollout_accepts :
  ∃ self1 pr,
    voyager_agent.rollout examples.numbered_answers examples.retrieve_none
      examples.gen_always examples.step_passes examples.critic_of_reward
      examples.agent0 examples.task7 false
    = Some (self1, inr (true, parsed_result.Dict (Some pr))).
Proof.
  assert (Hrun : match voyager_agent.rollout examples.numbered_answers
                         examples.retrieve_none examples.gen_always
                         examples.step_passes examples.critic_of_reward
                         examples.agent0 examples.task7 false with
                 | Some (_, inr (true, parsed_result.Dict (Some _))) => true
                 | _ => false
                 end = true) by (vm_compute; reflexivity).
  destruct (voyager_agent.rollout _ _ _ _ _ _ _ _)
    as [[self1 [e|[[] [|[pr|]]]]]|]; try discriminate.
  by exists self1, pr.
Qed.

Lemma C10_dependencies_drained_witness :
  ∃ self' r name e,
    voyager_agent.train_step examples.no_parse examples.numbered_answers
      examples.retrieve_none examples.gen_always examples.step_passes
      examples.critic_of_reward examples.describe examples.agent0 examples.task7
    = Some (self', r)
    ∧ base_vector_mem.fn_str_map (voyager_agent.procedural_mem examples.agent0)
      !! name = None
    ∧ base_vector_mem.fn_str_map (voyager_agent.procedural_mem self')
      = <[name := e]>
          (base_vector_mem.fn_str_map
             (voyager_agent.procedural_mem examples.agent0))
    ∧ entry.dependencies e = Some []
    ∧ entry.task e = voyager_agent.ft_task examples.task7.
Proof.
  destruct rollout_accepts as (self1 & pr & Hroll).
  exact (proj1 (proj2 (proj2
           (C10_dependencies_drained examples.no_parse examples.numbered_answers
              examples.retrieve_none examples.gen_always examples.step_passes
              examples.critic_of_reward examples.describe)))
           examples.agent0 self1 examples.task7 pr Hroll).
Defined.

(* ===================================================================== *)
(** * Part III: further properties of the code                            *)
(* ===================================================================== *)

(** ** The skill store ([add_code]) *)








(** ** The task ledger and the question cache *)

Section ledger_more.
Import base_curriculum.

Lemma first_occurrences_id (l : list string) :
  NoDup l → spec.first_occurrences l = l.
Proof.
  induction 1 as [|x l Hx Hnd IH]; simpl; [done|].
  rewrite IH. f_equal. apply filter_all. intros y Hy ->. done.
Qed.

Lemma update_exploration_progress_spec (self : t) (disk : checkpoint)
    (task : string) (success : bool) :
  update_exploration_progress self disk task success
  = let completed :=
      spec.first_occurrences
        (if success then completed_tasks self ++ [task] else completed_tasks self) in
    let failed :=
      filter (λ y, y ∉ completed)
             (if success then failed_tasks self else failed_tasks self ++ [task]) in
    Some (mk completed failed (qa_cache self)
             (qa_cache_questions_vectordb self) (qa_calls self),
          mk_checkpoint completed failed (qa_cache_json disk)
                        (vectordb_dir disk)).
Proof.
  unfold update_exploration_progress. rewrite clean_up_tasks_spec.
  by destruct success.
Qed.
End ledger_more.








Section run_qa_more.
Import base_curriculum voyager_curriculum.
Variable run_answer_questions : nat → string → string.
Variable similarity_search_with_score : list string → string → list (string * Q).

Lemma run_qa_body_spec (st st' : qa_loop) (question : string)
    (oe : option py_exception) :
  run_qa_body run_answer_questions similarity_search_with_score st question
  = (st', oe) →
  (∀ k a, qa_cache (self st) !! k = Some a → qa_cache (self st') !! k = Some a)
  ∧ (spec.qa_consistent (self st) → spec.qa_consistent (self st'))
  ∧ (spec.answered st → spec.answered st')
  ∧ match oe with
    | None => length (questions st') = S (length (questions st))
    | Some e => e = AssertionError EmptyString
                ∧ questions st' = questions st ∧ answers st' = answers st
    end.
Proof.
  unfold run_qa_body, spec.answered.
  destruct (nearest_cached _ _ _) as [qc|].
  - destruct (qa_cache (self st) !! qc) as [ac|] eqn:Hqc; intros [= <- <-]; simpl.
    + split_and!; [done|done| |by rewrite length_app, Nat.add_1_r].
      intros Hans. apply Forall2_app; [done|]. by constructor.
    + done.
  - simpl. case_decide as Hkey.
    + intros [= <- <-]. simpl. done.
    + intros [= <- <-]. simpl.
      assert (Hnone : qa_cache (self st) !! question = None).
      { destruct (qa_cache (self st) !! question) eqn:E; [|done].
        exfalso. apply Hkey. eauto. }
      split_and!.
      * intros k a Hk. rewrite lookup_insert_ne; [done|congruence].
      * unfold spec.qa_consistent. simpl. intros Hc.
        rewrite length_app, map_size_insert_None by done. simpl. lia.
      * intros Hans. apply Forall2_app.
        -- eapply Forall2_impl; [exact Hans|]. simpl. intros q a Hq.
           rewrite lookup_insert_ne; [done|congruence].
        -- constructor; [|constructor]. apply lookup_insert_eq.
      * by rewrite length_app, Nat.add_1_r.
Qed.

Lemma answered_lengths (st : qa_loop) :
  spec.answered st → length (questions st) = length (answers st).
Proof. apply Forall2_length. Qed.

Lemma run_qa_loop_spec (questions_new : list string) :
  ∀ (st st' : qa_loop) (oe : option py_exception),
    run_qa_loop run_answer_questions similarity_search_with_score st questions_new
    = (st', oe) →
    (∀ k a, qa_cache (self st) !! k = Some a → qa_cache (self st') !! k = Some a)
    ∧ (spec.qa_consistent (self st) → spec.qa_consistent (self st'))
    ∧ (spec.answered st → spec.answered st')
    ∧ match oe with
      | None => length (questions st')
                = length (questions st) + length questions_new
      | Some e => e = AssertionError EmptyString
      end.
Proof.
  induction questions_new as [|q rest IH]; intros st st' oe; simpl.
  - intros [= <- <-]. split_and!; [done..|lia].
  - destruct (run_qa_body _ _ st q) as [st1 [e|]] eqn:Hbody;
      apply run_qa_body_spec in Hbody as (Hmono & Hcons & Hans & Hlen).
    + intros [= <- <-]. by destruct Hlen as (-> & _ & _).
    + intros Hloop. apply IH in Hloop as (Hmono' & Hcons' & Hans' & Hlen').
      split_and!.
      * intros k a Hk. by apply Hmono', Hmono.
      * intros H. by apply Hcons', Hcons.
      * intros H. by apply Hans', Hans.
      * destruct oe; [done|]. rewrite Hlen', Hlen. lia.
Qed.
End run_qa_more.


(** ** The rollout controller and [train_step] *)

Section agent_more.
Import voyager_agent.
Variable ast_parse : string → option code_parse.ast.
Variable run_answer_questions : nat → string → string.
Variable retrieve_code : base_vector_mem.t → string → py_exception + list entry.t.
Variable gen_code :
  nat → list entry.t → string → string → critic.critic_out → string →
  py_exception + parsed_result.value.
Variable task_env_step :
  string → bool → py_exception + (string * bool * option string).
Variable check_success :
  string → bool → string → string → py_exception + critic.critic_out.
Variable gen_code_desc : parsed_result.t → string → string.

Lemma get_task_context_ledger (b : base_curriculum.t)
    (d : base_curriculum.checkpoint) (task : string) :
  let r := base_curriculum.get_task_context run_answer_questions b d task in
  base_curriculum.completed_tasks (fst (fst r)) = base_curriculum.completed_tasks b
  ∧ base_curriculum.failed_tasks (fst (fst r)) = base_curriculum.failed_tasks b.
Proof.
  unfold base_curriculum.get_task_context.
  by destruct (base_curriculum.qa_cache b !! _).
Qed.

Lemma reset_configuration (self : t) (ft : full_task) :
  let self0 := reset run_answer_questions self ft in
  eval_later self0 = eval_later self
  ∧ max_task_attempts self0 = max_task_attempts self
  ∧ voyager_curriculum.previous_task (curriculum_module self0)
    = voyager_curriculum.previous_task (curriculum_module self)
  ∧ base_curriculum.completed_tasks
      (voyager_curriculum.base (curriculum_module self0))
    = base_curriculum.completed_tasks
        (voyager_curriculum.base (curriculum_module self))
  ∧ base_curriculum.failed_tasks
      (voyager_curriculum.base (curriculum_module self0))
    = base_curriculum.failed_tasks
        (voyager_curriculum.base (curriculum_module self)).
Proof.
  pose proof (get_task_context_ledger
                (voyager_curriculum.base (curriculum_module self))
                (curriculum_disk self) (ft_task ft)) as Hledger.
  unfold reset. simpl in Hledger.
  by destruct (base_curriculum.get_task_context _ _ _ _) as [[b d] ctx].
Qed.

(** A pass entered without a success verdict ends with a success verdict
    only together with a candidate, and goes on to the next pass only
    without one. *)
Lemma attempt_verdict (self : t) (upt : bool) (i : nat) (l : locals) :
  critic.success (critic_out l) = false →
  let r := attempt retrieve_code gen_code task_env_step check_success
                   self upt i l in
  (snd r = Next → critic.success (critic_out (fst r)) = false)
  ∧ (critic.success (critic_out (fst r)) = true →
     ∃ pr, parsed_result (fst r) = parsed_result.Dict (Some pr)).
Proof.
  intros Hl. unfold voyager_agent.attempt.
  destruct (retrieve_code _ _) as [e|skills]; [by simpl; rewrite Hl|].
  destruct (gen_code _ _ _ _ _ _) as [e|[|[pr|]]];
    [by simpl; rewrite Hl|by simpl; rewrite Hl| |by simpl; rewrite Hl].
  destruct (code_parse.append_dependencies _ _) as [[pr' full]|];
    [|by simpl; rewrite Hl].
  destruct (eval_later self && negb (train self) && negb upt);
    [by simpl; rewrite Hl|].
  destruct (task_env_step _ _) as [e|[[obs' reward'] info']];
    [by simpl; rewrite Hl|].
  destruct (check_success _ _ _ _) as [e|critic_out']; [by simpl; rewrite Hl|].
  destruct (critic.success critic_out') eqn:Hs; simpl; rewrite Hs;
    (split; intros; try done; eauto).
Qed.

Lemma attempts_verdict (self : t) (upt : bool) (n : nat) :
  ∀ i l,
    critic.success (critic_out l) = false →
    let r := attempts retrieve_code gen_code task_env_step check_success
                      self upt n i l in
    critic.success (critic_out (fst r)) = true →
    ∃ pr, parsed_result (fst r) = parsed_result.Dict (Some pr).
Proof.
  induction n as [|n IH]; intros i l Hl; simpl; [by rewrite Hl|].
  destruct (attempt_verdict self upt i l Hl) as [Hnext Hsome].
  destruct (attempt _ _ _ _ self upt i l) as [l' []]; simpl in *; try done.
  apply IH. by apply Hnext.
Qed.

(** With execution deferred, no pass touches the critic's verdict or the
    environment feedback. *)
Lemma attempt_deferred (self : t) (i : nat) (l : locals) :
  eval_later self = true → train self = false →
  let r := attempt retrieve_code gen_code task_env_step check_success
                   self false i l in
  critic_out (fst r) = critic_out l ∧ obs (fst r) = obs l.
Proof.
  intros He Ht. unfold voyager_agent.attempt. rewrite He, Ht. simpl.
  destruct (retrieve_code _ _) as [e|skills]; [done|].
  destruct (gen_code _ _ _ _ _ _) as [e|[|[pr|]]]; [done|done| |done].
  by destruct (code_parse.append_dependencies _ _) as [[pr' full]|].
Qed.

Lemma attempts_deferred (self : t) (n : nat) :
  eval_later self = true → train self = false →
  ∀ i l,
    let r := attempts retrieve_code gen_code task_env_step check_success
                      self false n i l in
    critic_out (fst r) = critic_out l ∧ obs (fst r) = obs l.
Proof.
  intros He Ht. induction n as [|n IH]; intros i l; simpl; [done|].
  destruct (attempt_deferred self i l He Ht) as [Hc Ho].
  destruct (attempt _ _ _ _ self false i l) as [l' []]; simpl in *; try done.
  destruct (IH (S i) l') as [Hc' Ho']. split; congruence.
Qed.
End agent_more.

Section store_more.
Import base_vector_mem.
Variable ast_parse : string → option code_parse.ast.

(** Without the duplicate test and with matching key sets, [add_code] puts
    the entry and its description under one new name, writes both to disk
    and returns the name. *)
Lemma add_code_synced (self : t) (disk : checkpoint) (pd : processed_data)
    (description old_name : string) :
  spec.synced self →
  derive_name ast_parse pd = inr old_name →
  ∃ name code',
    fn_str_map self !! name = None
    ∧ let fn_str_map' :=
        <[name := entry.mk code' (dependencies pd) (task pd) description]>
          (fn_str_map self) in
      let vectordb' := <[name := description]> (vectordb self) in
      add_code ast_parse self disk pd description false
      = Some (mk fn_str_map' vectordb', mk_checkpoint fn_str_map' vectordb',
              inr (Some name)).
Proof.
  intros Hsync Hname. unfold add_code. rewrite Hname.
  destruct (name_loop_total (fn_str_map self) old_name false (code pd))
    as [[|name ver] Hloop]; rewrite Hloop.
  - by apply name_loop_no_skip in Hloop.
  - apply name_loop_exit_unused in Hloop. eexists name, _.
    split; [done|]. simpl.
    rewrite decide_True; [reflexivity|].
    rewrite <- !size_dom, !dom_insert_L. unfold spec.synced in Hsync.
    by rewrite Hsync.
Qed.

Lemma add_skill_synced (self : t) (disk : checkpoint) (pr : parsed_result.t)
    (skill_description task : string) :
  spec.synced self →
  ∃ name code',
    fn_str_map self !! name = None
    ∧ let fn_str_map' :=
        <[name := entry.mk code' (Some (parsed_result.dependencies pr)) task
                           skill_description]>
          (fn_str_map self) in
      let vectordb' := <[name := skill_description]> (vectordb self) in
      voyager_procedural_mem.add_skill ast_parse self disk pr skill_description task
      = Some (mk fn_str_map' vectordb', mk_checkpoint fn_str_map' vectordb',
              parsed_result.set_task task pr, inr ()).
Proof.
  intros Hsync. unfold voyager_procedural_mem.add_skill.
  edestruct (add_code_synced self disk) as (name & code' & Hnone & ->);
    [done|reflexivity|].
  by exists name, code'.
Qed.
End store_more.







(** ** The analyzer: function names and the whitelist *)

Section analyzer_more.
  Import code_parse.
  Variable builtin_names : gset string.

Lemma scan_function_names (l : list ast) (acc : extraction) :
  fn_name <$> functions (foldl (scan_node builtin_names) acc l)
  = (fn_name <$> functions acc) ++ spec.function_names l.
Proof.
  revert acc. induction l as [|n l IH]; intros acc; simpl.
  - by rewrite app_nil_r.
  - rewrite IH. unfold spec.function_names. simpl.
    unfold scan_node, extract_info_from_imports.
    destruct (cls_of n) eqn:Hn; simpl; try done.
    by rewrite fmap_app, <- app_assoc.
Qed.

Lemma fold_last_name (l : list ast) (init : string) :
  foldl (λ acc node,
           match cls_of node with
           | FunctionDef name => name
           | _ => acc
           end) init l
  = default init (last (spec.function_names l)).
Proof.
  revert init. induction l as [|n l IH]; intros init; simpl; [done|].
  rewrite IH. unfold spec.function_names. simpl.
  destruct (cls_of n) eqn:Hn; simpl; try done.
  rewrite last_cons. by destruct (last _).
Qed.
End analyzer_more.




(** ** Validation of a proposed task *)

Lemma split_length (sep : Ascii.ascii) (s : string) :
  length (split sep s)
  = S (length (filter (λ c, c = sep) (String.list_ascii_of_string s))).
Proof.
  induction s as [|c s IH]; simpl; [done|].
  case_decide as Hc.
  - rewrite filter_cons_True by done. simpl. by rewrite IH.
  - rewrite filter_cons_False by done. rewrite <- IH.
    by destruct (split sep s).
Qed.

(** The pieces of [split] joined by the separator give the string back. *)
Lemma split_join (sep : Ascii.ascii) (s : string) :
  join (String sep EmptyString) (split sep s) = s.
Proof.
  induction s as [|c s IH]; simpl; [done|].
  pose proof (split_length sep s) as Hlen.
  case_decide as Hc.
  - subst c. destruct (split sep s) as [|piece pieces] eqn:Hs; [done|].
    simpl in *. rewrite append_nil_l, append_cons, append_nil_l.
    by rewrite IH.
  - destruct (split sep s) as [|piece pieces] eqn:Hs; [done|].
    rewrite <- IH. simpl. destruct pieces; [done|].
    by rewrite append_cons.
Qed.

Section validation.
  Import curriculum_validation.
  Variable get_call_str : string → py_exception + string.

Lemma check_test_case_ok (gt_fn_name test_case : string) :
  check_test_case get_call_str gt_fn_name test_case = inr ()
  ↔ startswith "assert" test_case = true
    ∧ ∃ func_call,
        get_call_str test_case = inr func_call
        ∧ contains gt_fn_name func_call = true.
Proof.
  unfold check_test_case, assert_test_case_has_assert,
    extract_assert_function_call, assert_function_name_in_call.
  destruct (startswith "assert" test_case); simpl.
  - destruct (get_call_str test_case) as [e|func_call]; simpl.
    + split; [done|]. by intros [_ (? & ? & _)].
    + destruct (contains gt_fn_name func_call) eqn:Hc.
      * split; [|done]. intros _. split; [done|]. by exists func_call.
      * split; [done|]. intros [_ (? & [= <-] & ?)]. congruence.
  - split; [done|]. by intros [? _].
Qed.

Lemma construct_valid_test_cases_from_spec (gt_fn_name : string)
    (raw_test_cases valid_test_cases : list string) :
  match construct_valid_test_cases_from get_call_str valid_test_cases
          raw_test_cases gt_fn_name with
  | inr valid =>
      valid = valid_test_cases ++ raw_test_cases
      ∧ Forall (λ test_case,
                  check_test_case get_call_str gt_fn_name test_case = inr ())
               raw_test_cases
  | inl e =>
      ∃ test_case e0,
        test_case ∈ raw_test_cases
        ∧ check_test_case get_call_str gt_fn_name test_case = inl e0
        ∧ e = Exception (exception_str e0 +:+ ", " +:+ type_name e0 +:+ nl)
  end.
Proof.
  revert valid_test_cases.
  induction raw_test_cases as [|test_case rest IH]; intros valid; simpl.
  - by rewrite app_nil_r.
  - destruct (check_test_case get_call_str gt_fn_name test_case)
      as [e0|[]] eqn:Hc.
    + exists test_case, e0. split; [by left|done].
    + specialize (IH (valid ++ [test_case])).
      destruct (construct_valid_test_cases_from _ _ rest _) as [e|l].
      * destruct IH as (tc & e0 & ? & ? & ?). exists tc, e0.
        split; [by right|done].
      * destruct IH as [-> Hall]. rewrite <- app_assoc. split; [done|].
        by constructor.
Qed.
End validation.

Lemma assert_single_gt_fn_name_space (function_name : string) :
  curriculum_validation.assert_single_gt_fn_name function_name = inr ()
  ↔ Ascii.Space ∉ String.list_ascii_of_string function_name.
Proof.
  unfold curriculum_validation.assert_single_gt_fn_name.
  rewrite split_length. case_decide as Hn.
  - split; [|done]. intros _ Hin.
    assert (Hf : Ascii.Space
                 ∈ filter (λ c, c = Ascii.Space)
                          (String.list_ascii_of_string function_name))
      by by apply list_elem_of_filter.
    destruct (filter _ _); [by inversion Hf|simpl in Hn; lia].
  - split; [done|]. intros Hnot. exfalso. apply Hn. f_equal.
    destruct (filter _ _) as [|c l] eqn:Hf; [done|].
    assert (Hc : c ∈ filter (λ c, c = Ascii.Space)
                        (String.list_ascii_of_string function_name))
      by (rewrite Hf; by left).
    apply list_elem_of_filter in Hc as [-> Hc]. done.
Qed.

Lemma construct_valid_test_cases_spec
    (get_call_str : string → py_exception + string)
    (raw_test_cases : list string) (gt_fn_name : string) :
  match curriculum_validation.construct_valid_test_cases get_call_str
          raw_test_cases gt_fn_name with
  | inr valid_test_cases =>
      valid_test_cases = raw_test_cases
      ∧ Forall (λ test_case,
                  startswith "assert" test_case = true
                  ∧ ∃ func_call,
                      get_call_str test_case = inr func_call
                      ∧ contains gt_fn_name func_call = true)
               raw_test_cases
  | inl e =>
      ∃ test_case e0,
        test_case ∈ raw_test_cases
        ∧ curriculum_validation.check_test_case get_call_str gt_fn_name test_case
          = inl e0
        ∧ e = Exception (exception_str e0 +:+ ", " +:+ type_name e0 +:+ nl)
  end.
Proof.
  unfold curriculum_validation.construct_valid_test_cases.
  pose proof (construct_valid_test_cases_from_spec get_call_str gt_fn_name
                raw_test_cases []) as H.
  destruct (curriculum_validation.construct_valid_test_cases_from _ _ _ _)
    as [e|valid]; [done|].
  destruct H as [-> Hall]. split; [done|].
  eapply Forall_impl; [exact Hall|]. intros test_case.
  by rewrite check_test_case_ok.
Qed.




Section response_more.
  Import voyager_curriculum.
  Variable visit_imports : code_parse.ast → list string.
  Variable ast_parse : string → option code_parse.ast.
  Variable whitelist_modules : gset string.
  Variable get_call_str : string → py_exception + string.

Lemma assert_modules_in_whitelist_all (l : list string) :
  match code_parse.assert_modules_in_whitelist whitelist_modules l with
  | inr _ => Forall (λ module, module ∈ whitelist_modules) l
  | inl e => ∃ msg, e = AssertionError ("Error: module " +:+ msg)
  end.
Proof.
  induction l as [|module l IH]; simpl; [done|].
  case_decide as Hin.
  - destruct (code_parse.assert_modules_in_whitelist _ l); [done|].
    by constructor.
  - by eexists.
Qed.

(** What [response_validation] has checked when it returns, and what it
    can raise. *)
Lemma response_validation_spec (self : t) (r : response) :
  match response_validation visit_imports ast_parse whitelist_modules
          get_call_str self r with
  | inr r' =>
      r' = mk_response (task r) (gt_fn_name r) (test_setup_code r)
                       (test_tuple r) (Some (test_tuple r)) (task_prompt r)
      ∧ task r ≠ EmptyString
      ∧ (task r ∉ base_curriculum.completed_tasks (base self))
      ∧ task r ≠ previous_task self
      ∧ test_tuple r ≠ []
      ∧ (∃ tree,
           ast_parse (test_setup_code r) = Some tree
           ∧ code_parse.all_imported_modules visit_imports tree
             ⊆ whitelist_modules)
      ∧ (Ascii.Space ∉ String.list_ascii_of_string (gt_fn_name r))
      ∧ Forall (λ test_case,
                  startswith "assert" test_case = true
                  ∧ ∃ func_call,
                      get_call_str test_case = inr func_call
                      ∧ contains (gt_fn_name r) func_call = true)
               (test_tuple r)
  | inl e => e ≠ AssertionError "could not parse all test cases"
  end.
Proof.
  unfold response_validation, curriculum_validation.perform_task_assertions,
    curriculum_validation.assert_task_not_completed,
    curriculum_validation.assert_task_not_previous,
    code_parse.extract_from_ast_modules.
  destruct (decide (task r = EmptyString)) as [|Htask]; [done|].
  destruct (decide (task r ∉ _)) as [Hcompleted|]; [|done].
  destruct (decide (task r ≠ previous_task self)) as [Hprev|]; [|done].
  simpl.
  destruct (decide (test_tuple r = [])) as [|Htuple]; [done|].
  destruct (ast_parse (test_setup_code r)) as [tree|] eqn:Hparse; [|done].
  simpl.
  pose proof (assert_modules_in_whitelist_all
                (elements (code_parse.all_imported_modules visit_imports tree)))
    as Hwl.
  destruct (code_parse.assert_modules_in_whitelist _ _) as [e|[]].
  { destruct Hwl as [msg ->]. simpl. by intros [= H]. }
  simpl.
  pose proof (proj1 (assert_single_gt_fn_name_space (gt_fn_name r))) as Hsingle.
  unfold curriculum_validation.assert_single_gt_fn_name in *.
  destruct (decide (length (split Ascii.Space (gt_fn_name r)) = 1))
    as [Hone|]; [|done].
  simpl.
  pose proof (construct_valid_test_cases_spec get_call_str (test_tuple r)
                (gt_fn_name r)) as Hvalid.
  destruct (curriculum_validation.construct_valid_test_cases _ _ _)
    as [e|valid]; simpl.
  { by destruct Hvalid as (? & ? & _ & _ & ->). }
  destruct Hvalid as [-> Hall].
  rewrite decide_False by done.
  split_and!; try done.
  - exists tree. split; [done|]. intros x Hx.
    rewrite Forall_forall in Hwl. apply Hwl. by apply elem_of_elements.
  - by apply Hsingle.
Qed.
End response_more.


(** ** Proposing the next task: the function name *)

Lemma str_replace_self (old new : string) : str_replace old new old = new.
Proof.
  unfold str_replace. case_decide as Hold; [by subst|].
  rewrite <- (append_nil_r old) at 2.
  by rewrite replace_occurrence, replace_nil, append_nil_r.
Qed.

Lemma size_list_to_set_le (l : list string) :
  size (list_to_set l : gset string) ≤ length l.
Proof.
  induction l as [|x l IH]; simpl; [done|].
  rewrite size_union_alt, size_singleton.
  assert (size (list_to_set l ∖ {[x]} : gset string)
          ≤ size (list_to_set l : gset string)).
  { apply subseteq_size. by intros y [? _]%elem_of_difference. }
  lia.
Qed.

Section rename.
  Import voyager_curriculum.
  Variable excluded_names : list string.
  Variable base_name : string.

Lemma rename_loop_run (v : nat) :
  spec.name_at base_name v ∉ excluded_names →
  ∀ fuel ver,
    1 ≤ ver ≤ v →
    (∀ w, ver ≤ w < v → spec.name_at base_name w ∈ excluded_names) →
    v - ver ≤ fuel →
    rename_loop fuel excluded_names base_name (spec.name_at base_name ver) ver
    = Some (spec.name_at base_name v, v).
Proof.
  intros Hv. induction fuel as [|k IH]; intros ver Hver Hbelow Hfuel.
  - assert (ver = v) as -> by lia. simpl. by rewrite decide_False.
  - destruct (decide (ver = v)) as [->|Hne].
    + simpl. by rewrite decide_False.
    + simpl. rewrite decide_True by (apply Hbelow; lia).
      rewrite <- (name_at_versioned base_name (S ver)) by lia.
      apply IH; [lia| |lia]. intros w Hw. apply Hbelow. lia.
Qed.

(** The loop ends within [length excluded_names] renamings, at the first
    name that is not excluded. *)
Lemma rename_loop_total :
  ∃ v, 1 ≤ v
       ∧ (spec.name_at base_name v ∉ excluded_names)
       ∧ (∀ w, 1 ≤ w < v → spec.name_at base_name w ∈ excluded_names)
       ∧ rename_loop (length excluded_names) excluded_names base_name
                     base_name 1
         = Some (spec.name_at base_name v, v).
Proof.
  set (m := gset_to_gmap (entry.mk EmptyString None EmptyString EmptyString)
                         (list_to_set excluded_names) : gmap string entry.t).
  assert (Hnone : ∀ x, m !! x = None ↔ x ∉ excluded_names).
  { intros x. unfold m. by rewrite lookup_gset_to_gmap_None, elem_of_list_to_set. }
  assert (Hsome : ∀ x, is_Some (m !! x) ↔ x ∈ excluded_names).
  { intros x. rewrite <- not_eq_None_Some, Hnone.
    destruct (decide (x ∈ excluded_names)); tauto. }
  assert (Hsize : size m ≤ length excluded_names).
  { rewrite <- size_dom. unfold m. rewrite dom_gset_to_gmap.
    apply size_list_to_set_le. }
  destruct (first_unused_exists m base_name) as (v & Hv & Hfree & Hbelow).
  exists v. split_and!.
  - lia.
  - by apply Hnone.
  - intros w Hw. by apply Hsome, Hbelow.
  - apply (rename_loop_run v (proj1 (Hnone _) Hfree) (length excluded_names) 1).
    + lia.
    + intros w Hw. apply Hsome, Hbelow. lia.
    + lia.
Qed.
End rename.


(** ** The message of the curriculum *)

Section render_more.
  Import voyager_curriculum.

Lemma render_pairs_spec (pairs : list (string * string)) :
  ∀ i context,
    i ≤ 5 →
    render_pairs i pairs context
    = context
      +:+ spec.concat_strings
            (imap (λ k pair, spec.question_block (i + k) pair)
                  (take (6 - i) (filter (λ pair, spec.acceptable pair) pairs))).
Proof.
  induction pairs as [|[question answer] rest IH]; intros i context Hi; simpl.
  - destruct (6 - i); simpl; by rewrite append_nil_r.
  - destruct (contains "Answer: Unknown" answer
              || contains "language model" answer) eqn:Hskip.
    + rewrite filter_cons_False; [by apply IH|].
      change (spec.acceptable (question, answer))
        with (negb (contains "Answer: Unknown" answer
                    || contains "language model" answer)).
      rewrite Hskip. by intros [].
    + rewrite filter_cons_True.
      2:{ change (spec.acceptable (question, answer))
            with (negb (contains "Answer: Unknown" answer
                        || contains "language model" answer)).
          by rewrite Hskip. }
      replace (6 - i) with (S (5 - i)) by lia. simpl.
      rewrite Nat.add_0_r.
      assert (Hblock :
        (context +:+ ("Question " +:+ str_of_nat i +:+ ": " +:+ question +:+ nl))
        +:+ (answer +:+ nl +:+ nl)
        = context +:+ spec.question_block i (question, answer)).
      { unfold spec.question_block. simpl. by rewrite !append_assoc. }
      case_decide as Hlast.
      * assert (i = 5) as -> by lia. simpl. by rewrite Hblock, append_nil_r.
      * rewrite IH by lia. rewrite Hblock, append_assoc.
        replace (6 - S i) with (5 - i) by lia. do 3 f_equal.
        apply imap_ext. intros k pair _. simpl. f_equal. lia.
Qed.
End render_more.


(** ** Retrieval from the skill library *)

Section retrieve_more.
  Import base_vector_mem.

Lemma entries_of_spec (fn_str_map : gmap string entry.t) (docs : list string) :
  Forall (λ name, name ∈ dom fn_str_map) docs →
  ∃ entries,
    entries_of fn_str_map docs = inr entries
    ∧ Forall2 (λ name e, fn_str_map !! name = Some e) docs entries.
Proof.
  induction 1 as [|doc rest Hdoc _ (entries & Heq & Hall)]; simpl.
  - by exists [].
  - apply elem_of_dom in Hdoc as [e He]. rewrite He, Heq.
    exists (e :: entries). split; [done|]. by constructor.
Qed.
End retrieve_more.



(** ** The critic *)


(** With the default [use_critic] and without [use_critic_success], a
    model that answers with success does not turn a failed run into a
    success. *)
Example check_success_keeps_reward :
  critic.check_success examples.model_says_success examples.critic_reward_only
    "AssertionError" false "def c(): return b()" EmptyString
  = inr (critic.mk false "looks fine" "it runs").
Proof. reflexivity. Qed.
